(** * Voting.sol: a shallow embedding of the ballot contract

    The contract [Voting] (contract/Voting.sol, Solidity ^0.8.0) keeps four
    storage variables and offers two functions besides its constructor:

    - [admin]      : address
    - [hasVoted]   : mapping(address => bool)
    - [votes]      : mapping(string => uint256)
    - [candidates] : string[]

    Storage is a record; the two mappings are finite maps read with the
    Solidity default (false, 0) at absent keys.  Function bodies are
    computations in a state-and-error monad: a failing [require] or a
    checked-arithmetic panic aborts the call, and the transaction layer
    ([transact]) then keeps the storage of before the call.  Gas and
    msg.value are outside the model.

    The callers of the contract follow: the deployment script
    (script/deploy.js) and the handlers of the React front end, as
    functions on the state of the component and the storage of the
    ledger. *)

From stdpp Require Import gmap strings list fin_maps.
From Stdlib Require Import ZArith Lia.

Local Open Scope Z_scope.
Local Open Scope string_scope.

(** ** Machine types *)

Abbreviation address := Z (only parsing).
Abbreviation uint256 := Z (only parsing).

Definition ADDRESS_SPACE : Z := 2 ^ 160.
Definition MAX_UINT256 : Z := 2 ^ 256 - 1.

(** An [address] is a 160-bit unsigned value. *)
Definition is_address (a : Z) : Prop := 0 <= a < ADDRESS_SPACE.

(** ** Storage *)

Record Voting := mkVoting {
  admin : address;
  hasVoted : gmap address bool;
  votes : gmap string uint256;
  candidates : list string
}.

(** Storage before the constructor runs: every slot is zero. *)
Definition zero_storage : Voting :=
  {| admin := 0; hasVoted := ∅; votes := ∅; candidates := [] |}.

(** [hasVoted[a]]: a mapping read, false where nothing was written. *)
Definition hasVoted_at (s : Voting) (a : address) : bool :=
  default false (hasVoted s !! a).

(** [votes[name]]: a mapping read, 0 where nothing was written. *)
Definition votes_at (s : Voting) (name : string) : uint256 :=
  default 0 (votes s !! name).

(** ** Outcomes of a call *)

Inductive result (A : Type) : Type :=
  | Ok (a : A)
  | Revert (reason : string)
  | Panic (code : Z).
Arguments Ok {A} a.
Arguments Revert {A} reason.
Arguments Panic {A} code.

(** The two rejections of the ledger, by the reason string of the
    [require] that raises them. *)
Definition AlreadyVoted {A} : result A := Revert "Already voted!".
Definition InvalidCandidate {A} : result A := Revert "Invalid candidate!".

(** Panic(0x11): arithmetic overflow in checked arithmetic. *)
Definition OVERFLOW : Z := 17.

(** ** The contract monad: storage threaded through, errors abort *)

Definition M (A : Type) : Type := Voting -> result (A * Voting).

Definition ret {A} (a : A) : M A := fun s => Ok (a, s).

Definition bind {A B} (m : M A) (k : A -> M B) : M B :=
  fun s => match m s with
           | Ok (a, s') => k a s'
           | Revert r => Revert r
           | Panic c => Panic c
           end.

Notation "x <- m ;; k" := (bind m (fun x => k))
  (at level 100, m at next level, right associativity).
Notation "m ;;; k" := (bind m (fun _ => k))
  (at level 100, right associativity).

Definition get : M Voting := fun s => Ok (s, s).

Definition require (cond : bool) (reason : string) : M unit :=
  fun s => if cond then Ok (tt, s) else Revert reason.

(** [x++] on a uint256 under Solidity 0.8 checked arithmetic. *)
Definition checked_incr (x : uint256) : M uint256 :=
  fun s => if decide (x = MAX_UINT256) then Panic OVERFLOW else Ok (x + 1, s).

(** Assignments to the storage variables. *)
Definition set_admin (a : address) : M unit :=
  fun s => Ok (tt, {| admin := a; hasVoted := hasVoted s;
                      votes := votes s; candidates := candidates s |}).

Definition set_candidates (cs : list string) : M unit :=
  fun s => Ok (tt, {| admin := admin s; hasVoted := hasVoted s;
                      votes := votes s; candidates := cs |}).

Definition set_hasVoted (a : address) (b : bool) : M unit :=
  fun s => Ok (tt, {| admin := admin s; hasVoted := <[a := b]> (hasVoted s);
                      votes := votes s; candidates := candidates s |}).

Definition set_votes (name : string) (n : uint256) : M unit :=
  fun s => Ok (tt, {| admin := admin s; hasVoted := hasVoted s;
                      votes := <[name := n]> (votes s);
                      candidates := candidates s |}).

(** Sum of the values of a finite map of counters. *)
Definition map_sum `{Countable K} (m : gmap K Z) : Z :=
  map_fold (fun _ n acc => n + acc) 0 m.

(** Sum of the lookups (0 where absent) over a list of keys. *)
Definition lookup_sum `{Countable K} (m : gmap K Z) (l : list K) : Z :=
  foldr (fun k acc => default 0 (m !! k) + acc) 0 l.

Definition bool_to_nat (b : bool) : nat := if b then 1%nat else 0%nat.

(** Number of keys of a flag map whose flag is set. *)
Definition count_true (m : gmap Z bool) : nat :=
  size (filter (fun kv : Z * bool => kv.2 = true) m).

Section Contract.

(** [keccak256] is a built-in of the language; it is taken as a
    parameter, with an abstract type of digests. *)
Context {digest : Type} `{EqDecision digest}.
Variable keccak256 : string -> digest.

(** No two names share a digest. *)
Definition collision_free : Prop :=
  ∀ a b : string, keccak256 a = keccak256 b → a = b.

(** *** constructor(string[] memory _candidates) *)
Definition constructor (sender : address) (_candidates : list string)
  : M unit :=
  set_admin sender ;;;
  set_candidates _candidates.

(** *** validCandidate(string memory name) internal view

    The [for] loop over [candidates[i]], i = 0 .. length-1, returning
    true at the first entry whose digest is that of [name]. *)
Fixpoint validCandidate_loop (rest : list string) (name : string) : bool :=
  match rest with
  | [] => false
  | ci :: rest' =>
      if decide (keccak256 ci = keccak256 name) then true
      else validCandidate_loop rest' name
  end.

Definition validCandidate (name : string) : M bool :=
  s <- get ;;
  ret (validCandidate_loop (candidates s) name).

(** *** vote(string memory candidate) public *)
Definition vote (sender : address) (candidate : string) : M unit :=
  s <- get ;;
  require (negb (hasVoted_at s sender)) "Already voted!" ;;;
  ok <- validCandidate candidate ;;
  require ok "Invalid candidate!" ;;;
  s1 <- get ;;
  n <- checked_incr (votes_at s1 candidate) ;;
  set_votes candidate n ;;;
  set_hasVoted sender true.

(** *** getVotes(string memory candidate) public view *)
Definition getVotes (candidate : string) : M uint256 :=
  s <- get ;;
  ret (votes_at s candidate).

(** *** hasVoted(address) : the getter of the public mapping *)
Definition get_hasVoted (a : address) : M bool :=
  s <- get ;;
  ret (hasVoted_at s a).

(** ** Transactions *)

(** Deployment runs the constructor on zeroed storage. *)
Definition deploy (sender : address) (cands : list string) : result Voting :=
  match constructor sender cands zero_storage with
  | Ok (_, s) => Ok s
  | Revert r => Revert r
  | Panic c => Panic c
  end.

(** A [vote] transaction: the storage after it.  A call that fails is
    rolled back whole. *)
Definition transact (s : Voting) (sender : address) (candidate : string)
  : Voting :=
  match vote sender candidate s with
  | Ok (_, s') => s'
  | _ => s
  end.

(** Whether the call returns normally. *)
Definition accepted (s : Voting) (sender : address) (candidate : string)
  : bool :=
  match vote sender candidate s with
  | Ok _ => true
  | _ => false
  end.

(** A sequence of [vote] transactions, each a pair (sender, candidate). *)
Fixpoint run (s : Voting) (calls : list (Z * string)) : Voting :=
  match calls with
  | [] => s
  | (sender, c) :: rest => run (transact s sender c) rest
  end.

(** How many calls of the sequence were accepted. *)
Fixpoint count_accepted (s : Voting) (calls : list (Z * string)) : nat :=
  match calls with
  | [] => 0%nat
  | (sender, c) :: rest =>
      (bool_to_nat (accepted s sender c)
       + count_accepted (transact s sender c) rest)%nat
  end.

(** How many accepted calls of the sequence named [name]. *)
Fixpoint count_accepted_for (name : string) (s : Voting)
    (calls : list (Z * string)) : nat :=
  match calls with
  | [] => 0%nat
  | (sender, c) :: rest =>
      (bool_to_nat (accepted s sender c && bool_decide (c = name))
       + count_accepted_for name (transact s sender c) rest)%nat
  end.

(** How many accepted calls of the sequence came from [v]. *)
Fixpoint count_accepted_by (v : address) (s : Voting)
    (calls : list (Z * string)) : nat :=
  match calls with
  | [] => 0%nat
  | (sender, c) :: rest =>
      (bool_to_nat (accepted s sender c && bool_decide (sender = v))
       + count_accepted_by v (transact s sender c) rest)%nat
  end.

(** States of a ledger deployed by [deployer] with [cands]: the
    deployed state, and what [vote] transactions from any addresses
    lead to. *)
Inductive reachable (deployer : Z) (cands : list string) : Voting -> Prop :=
  | reach_deploy s0 :
      is_address deployer →
      deploy deployer cands = Ok s0 →
      reachable deployer cands s0
  | reach_vote s sender c :
      reachable deployer cands s →
      is_address sender →
      reachable deployer cands (transact s sender c).

(** ** Observations used in the statements *)

(** Sum of the tallies over every name of the [votes] mapping. *)
Definition total_votes (s : Voting) : Z := map_sum (votes s).

(** Number of voters whose flag is true. *)
Definition voters_voted (s : Voting) : nat := count_true (hasVoted s).

(** Sum of what [getVotes] returns over a list of names. *)
Fixpoint sum_getVotes (names : list string) : M Z :=
  match names with
  | [] => ret 0
  | c :: rest =>
      n <- getVotes c ;;
      m <- sum_getVotes rest ;;
      ret (n + m)
  end.

(** Two storages that agree on everything but, possibly, [admin]. *)
Definition admin_variant (s1 s2 : Voting) : Prop :=
  hasVoted s1 = hasVoted s2 ∧ votes s1 = votes s2 ∧
  candidates s1 = candidates s2.

(** The same storage with another [admin]. *)
Definition with_admin (a : Z) (s : Voting) : Voting :=
  {| admin := a; hasVoted := hasVoted s; votes := votes s;
     candidates := candidates s |}.

End Contract.

(** A collision-free model of the hash, for closed examples: the digest
    of a name is the name. *)
Definition ideal_keccak256 (b : string) : string := b.

(** The candidate list of script/deploy.js, and the ledger an account
    deploys with it. *)
Definition deploy_example : list string := ["Alice"; "Bob"; "Charlie"].

Definition ledger0 : Voting :=
  {| admin := 1; hasVoted := ∅; votes := ∅; candidates := deploy_example |}.

(** Four calls: X = 10 votes Bob, X votes Alice, Y = 11 votes Dave,
    Y votes Charlie. *)
Definition scenario_calls : list (Z * string) :=
  [(10, "Bob"); (10, "Alice"); (11, "Dave"); (11, "Charlie")].

(** A list that names Alice twice, and its ledger. *)
Definition dup_example : list string := ["Alice"; "Alice"].

Definition dup_ledger : Voting :=
  {| admin := 1; hasVoted := ∅; votes := ∅; candidates := dup_example |}.

(** * The callers: the deployment script and the front end

    script/deploy.js deploys the contract; the React component [App]
    reads the chain id of the wallet, picks the contract address of
    that network, reads the flag of the account and the tallies of its
    candidates, and submits votes.  What is embedded here is what [App]
    computes: the chain key, the two tables, the conditions of the
    rendered controls and the reads of [fetchVotes].  Wallet requests
    and rendering are outside the model. *)

(** script/deploy.js, [main]: [Voting.deploy(candidates, ...)] with the
    list of the script. *)
Definition deploy_js (sender : address) : result Voting :=
  deploy sender deploy_example.

(** App: [const [candidates] = useState(["Alice", "Bob", "Charlie"])]. *)
Definition App_candidates : list string := ["Alice"; "Bob"; "Charlie"].

(** [BigInt.prototype.toString(16)] on a chain id: the digits of the
    number in base 16, lower case, most significant first, "0" for zero. *)
Definition hex_digit (d : N) : Ascii.ascii :=
  if (d <? 10)%N then Ascii.ascii_of_N (48 + d) else Ascii.ascii_of_N (87 + d).

Fixpoint toString16_digits (fuel : nat) (n : N) (acc : string) : string :=
  match fuel with
  | O => acc
  | S fuel' =>
      if (n <? 16)%N then String.String (hex_digit n) acc
      else toString16_digits fuel' (n / 16)%N
             (String.String (hex_digit (n mod 16)%N) acc)
  end.

Definition toString16 (n : N) : string :=
  toString16_digits (S (N.to_nat (N.log2 n))) n "".

(** Reading base-16 digits back, most significant first. *)
Definition hex_value (c : Ascii.ascii) : option N :=
  let k := Ascii.N_of_ascii c in
  if ((48 <=? k) && (k <=? 57))%N then Some (k - 48)%N
  else if ((97 <=? k) && (k <=? 102))%N then Some (k - 87)%N
  else None.

Fixpoint parse_hex_from (v : N) (s : string) : option N :=
  match s with
  | String.EmptyString => Some v
  | String.String c s' =>
      match hex_value c with
      | Some d => parse_hex_from (16 * v + d)%N s'
      | None => None
      end
  end.

(** connectWallet: [const chainId = `0x${network.chainId.toString(16)}`]. *)
Definition chainId_of (chain : N) : string := "0x" +:+ toString16 chain.

(** The two tables of App.  They are read at chain keys only, which
    start with 0x and so name no inherited property of an object. *)
Definition CONTRACT_ADDRESSES : gmap string string :=
  <["0xaa36a7" := "0x8677b8B77181d10Dc93F2d88470C5A8f90ac7F74"]>
  (<["0x7a69" := "0x68d1DD822148664dE9c3eed4bB7449376644a919"]> ∅).

Module NetworkInfo.
Record t := mk {
  name : string;
  currency : string;
  explorer : string;
  faucet : string
}.
End NetworkInfo.

Definition NETWORK_INFO : gmap string NetworkInfo.t :=
  <["0xaa36a7" := NetworkInfo.mk "Sepolia Testnet" "SepoliaETH"
                    "https://sepolia.etherscan.io" "https://sepoliafaucet.com"]>
  (<["0x7a69" := NetworkInfo.mk "Local Hardhat" "LocalETH" "" ""]> ∅).

(** Truthiness of [table[key]] where the entries are strings:
    [undefined] and the empty string are falsy. *)
Definition truthy_string (v : option string) : bool :=
  match v with
  | Some str => negb (String.eqb str "")
  | None => false
  end.

(** connectWallet, after the chain id is known: on
    [!CONTRACT_ADDRESSES[chainId]] it reports the network and returns;
    otherwise it builds the contract at [CONTRACT_ADDRESSES[chainId]]. *)
Inductive connect_outcome : Type :=
  | Unsupported (chainId : string)
  | Connected (chainId : string) (contractAddress : string).

Definition connect_network (chain : N) : connect_outcome :=
  let chainId := chainId_of chain in
  if negb (truthy_string (CONTRACT_ADDRESSES !! chainId))
  then Unsupported chainId
  else Connected chainId (default "" (CONTRACT_ADDRESSES !! chainId)).

(** The condition of the select and of the submit button:
    [currentNetwork !== "0xaa36a7" && currentNetwork !== "0x7a69"];
    [currentNetwork] is null or a chain key. *)
Definition off_network (currentNetwork : option string) : bool :=
  bool_decide (currentNetwork ≠ Some "0xaa36a7")
  && bool_decide (currentNetwork ≠ Some "0x7a69").

(** The condition of the Wrong Network panel, which holds the two
    switch buttons: [currentNetwork && NETWORK_INFO[currentNetwork] &&
    currentNetwork !== "0xaa36a7" && currentNetwork !== "0x7a69"]. *)
Definition wrong_network_panel (currentNetwork : option string) : bool :=
  match currentNetwork with
  | None => false
  | Some key =>
      negb (String.eqb key "")
      && bool_decide (is_Some (NETWORK_INFO !! key))
      && off_network (Some key)
  end.

(** The state of the component [App], one field per [useState] (the
    candidates are a constant, [App_candidates]).  [account] is the
    address of the signer; [contract] is the contract object: the
    address it was built at and the signer it sends from. *)
Module UI.
Record State := mk {
  account : option Z;
  contract : option (string * Z);
  votes : gmap string Z;
  selectedCandidate : string;
  currentNetwork : option string;
  isLoading : bool;
  error : option string;
  hasVoted : bool
}.

Definition init : State :=
  mk None None ∅ "" None false None false.

Definition setAccount (v : option Z) (u : State) : State :=
  mk v (contract u) (votes u) (selectedCandidate u) (currentNetwork u)
     (isLoading u) (error u) (hasVoted u).
Definition setContract (v : option (string * Z)) (u : State) : State :=
  mk (account u) v (votes u) (selectedCandidate u) (currentNetwork u)
     (isLoading u) (error u) (hasVoted u).
Definition setVotes (v : gmap string Z) (u : State) : State :=
  mk (account u) (contract u) v (selectedCandidate u) (currentNetwork u)
     (isLoading u) (error u) (hasVoted u).
Definition setSelectedCandidate (v : string) (u : State) : State :=
  mk (account u) (contract u) (votes u) v (currentNetwork u)
     (isLoading u) (error u) (hasVoted u).
Definition setCurrentNetwork (v : option string) (u : State) : State :=
  mk (account u) (contract u) (votes u) (selectedCandidate u) v
     (isLoading u) (error u) (hasVoted u).
Definition setIsLoading (v : bool) (u : State) : State :=
  mk (account u) (contract u) (votes u) (selectedCandidate u)
     (currentNetwork u) v (error u) (hasVoted u).
Definition setError (v : option string) (u : State) : State :=
  mk (account u) (contract u) (votes u) (selectedCandidate u)
     (currentNetwork u) (isLoading u) v (hasVoted u).
Definition setHasVoted (v : bool) (u : State) : State :=
  mk (account u) (contract u) (votes u) (selectedCandidate u)
     (currentNetwork u) (isLoading u) (error u) v.
End UI.

(** disconnectWallet: six of the eight fields go back to their initial
    values; [isLoading] and [error] stay. *)
Definition disconnectWallet (u : UI.State) : UI.State :=
  UI.setHasVoted false
    (UI.setSelectedCandidate ""
       (UI.setCurrentNetwork None
          (UI.setVotes ∅ (UI.setContract None (UI.setAccount None u))))).

(** How a contract call fails, as the front end sees it. *)
Inductive call_error : Type :=
  | RevertError (reason : string)
  | PanicError (code : Z).

Section FrontEnd.
Context {digest : Type} `{EqDecision digest}.
Variable keccak256 : string -> digest.

(** fetchVotes: [results = {}; for (const c of candidates)
    results[c] = await contract.getVotes(c)].  Every read is a call of
    its own; [between] gives, read by read, the vote transactions that
    reach the ledger before it (none where the list has run out). *)
Fixpoint fetchVotes_reads (names : list string)
    (between : list (list (Z * string))) (results : gmap string Z)
    (s : Voting) : result (gmap string Z * Voting) :=
  match names with
  | [] => Ok (results, s)
  | c :: rest =>
      match getVotes c (run keccak256 s (hd [] between)) with
      | Ok (n, s1) =>
          fetchVotes_reads rest (tl between) (<[c := n]> results) s1
      | Revert r => Revert r
      | Panic k => Panic k
      end
  end.

Definition fetchVotes (between : list (list (Z * string))) (s : Voting)
  : result (gmap string Z * Voting) :=
  fetchVotes_reads App_candidates between ∅ s.

(** What ethers reports for a failed contract call is a parameter: the
    text of [err.message], and [err.reason] of a panic.  [err.reason]
    of a revert is the reason string of the [require]. *)
Variable err_message : call_error -> string.
Variable panic_reason : Z -> string.

Definition err_reason (e : call_error) : string :=
  match e with
  | RevertError reason => reason
  | PanicError code => panic_reason code
  end.

(** [err.reason || err.message]: the empty string is falsy. *)
Definition reason_or_message (e : call_error) : string :=
  if bool_decide (err_reason e = "") then err_message e else err_reason e.

(** fetchVotes as a handler: the loading flag goes up, the reads are
    made, the tallies are stored, the loading flag goes down. *)
Definition App_fetchVotes (between : list (list (Z * string)))
    (s : Voting) (u : UI.State) : UI.State * Voting :=
  let u := UI.setIsLoading true u in
  let failed e :=
    (UI.setIsLoading false
       (UI.setError (Some ("Failed to fetch votes: " +:+ err_message e)) u),
     s) in
  match fetchVotes between s with
  | Ok (results, s') => (UI.setIsLoading false (UI.setVotes results u), s')
  | Revert reason => failed (RevertError reason)
  | Panic code => failed (PanicError code)
  end.

(** connectWallet.  [wallet] is what the wallet answers: nothing where
    there is no [window.ethereum], else the address of the signer, the
    chain id and the name of the network. *)
Definition App_connectWallet (wallet : option (Z * N * string))
    (between : list (list (Z * string)))
    (s : Voting) (u : UI.State) : UI.State * Voting :=
  match wallet with
  | None => (UI.setError (Some "Please install MetaMask!") u, s)
  | Some (addr, chain, networkName) =>
      let u := UI.setError None (UI.setIsLoading true u) in
      match connect_network chain with
      | Unsupported chainId =>
          let u := UI.setCurrentNetwork (Some chainId) u in
          (UI.setIsLoading false
             (UI.setError
                (Some ("Please switch to Sepolia Testnet or Local Hardhat (current: "
                       +:+ networkName +:+ ")")) u), s)
      | Connected chainId contractAddress =>
          let u := UI.setCurrentNetwork (Some chainId) u in
          let u := UI.setAccount (Some addr) u in
          let u := UI.setContract (Some (contractAddress, addr)) u in
          let failed e :=
            (UI.setIsLoading false
               (UI.setError (Some ("Connection error: " +:+ err_message e)) u),
             s) in
          match get_hasVoted addr s with
          | Ok (voted, s1) =>
              let u := UI.setHasVoted voted u in
              let '(u, s2) := App_fetchVotes between s1 u in
              (UI.setIsLoading false u, s2)
          | Revert reason => failed (RevertError reason)
          | Panic code => failed (PanicError code)
          end
      end
  end.

(** The handler of the submit button.  A submitted transaction is
    signed by the signer of the contract object and is the next one the
    ledger executes. *)
Definition App_vote (between : list (list (Z * string)))
    (s : Voting) (u : UI.State) : UI.State * Voting :=
  if bool_decide (UI.selectedCandidate u = "") then
    (UI.setError (Some "Please select a candidate") u, s)
  else
    match UI.contract u with
    | None => (UI.setError (Some "Contract not connected") u, s)
    | Some (_, signer) =>
        if UI.hasVoted u then
          (UI.setError (Some "You have already voted!") u, s)
        else
          let u := UI.setError None (UI.setIsLoading true u) in
          let failed e :=
            (UI.setIsLoading false
               (UI.setError
                  (Some ("Voting failed: " +:+ reason_or_message e)) u),
             s) in
          match vote keccak256 signer (UI.selectedCandidate u) s with
          | Ok (_, s1) =>
              let u := UI.setHasVoted true u in
              let '(u, s2) := App_fetchVotes between s1 u in
              (UI.setIsLoading false u, s2)
          | Revert reason => failed (RevertError reason)
          | Panic code => failed (PanicError code)
          end
    end.

End FrontEnd.

(** Texts for closed examples of the front end, and the state of the
    front end after account 10 connected on the local Hardhat node to
    the freshly deployed ledger and selected Bob. *)
Definition example_err_message (e : call_error) : string :=
  "execution reverted".

Definition example_panic_reason (code : Z) : string := "".

Definition ui_connected : UI.State :=
  UI.setSelectedCandidate "Bob"
    (App_connectWallet ideal_keccak256 example_err_message
       (Some (10, 31337%N, "localhost")) [] ledger0 UI.init).1.

(** * Proofs *)

(** ** Sums over a finite map of tallies *)

Section MapSum.
Context {K : Type} `{Countable K}.

Lemma map_sum_empty : map_sum (∅ : gmap K Z) = 0.
Proof. unfold map_sum. by rewrite map_fold_empty. Qed.

Lemma map_sum_insert_fresh (m : gmap K Z) k v :
  m !! k = None → map_sum (<[k := v]> m) = v + map_sum m.
Proof.
  intros Hk. unfold map_sum.
  rewrite map_fold_insert_L; [done | intros; lia | done].
Qed.

Lemma map_sum_delete (m : gmap K Z) k :
  map_sum m = default 0 (m !! k) + map_sum (delete k m).
Proof.
  destruct (m !! k) as [v|] eqn:Hk; simpl.
  - rewrite <- (insert_delete_id m k v) at 1 by done.
    apply map_sum_insert_fresh, lookup_delete_eq.
  - by rewrite delete_id.
Qed.

Lemma map_sum_insert (m : gmap K Z) k v :
  map_sum (<[k := v]> m) = map_sum m - default 0 (m !! k) + v.
Proof.
  rewrite (map_sum_delete m k).
  rewrite <- (insert_delete_eq m k v).
  rewrite map_sum_insert_fresh by apply lookup_delete_eq. lia.
Qed.

Lemma map_sum_nonneg (m : gmap K Z) :
  map_Forall (fun _ n => 0 <= n) m → 0 <= map_sum m.
Proof.
  induction m as [|k v m Hk IH] using map_ind; intros Hall.
  - by rewrite map_sum_empty.
  - rewrite map_sum_insert_fresh by done.
    apply map_Forall_insert in Hall as [Hv Hm]; [|done].
    specialize (IH Hm). lia.
Qed.

Lemma map_sum_lookup_le (m : gmap K Z) k :
  map_Forall (fun _ n => 0 <= n) m → default 0 (m !! k) <= map_sum m.
Proof.
  intros Hall. rewrite (map_sum_delete m k).
  assert (0 <= map_sum (delete k m)); [|lia].
  apply map_sum_nonneg. intros j n Hj.
  apply lookup_delete_Some in Hj as [_ Hj]. by apply (Hall j).
Qed.

Lemma lookup_sum_ext (m1 m2 : gmap K Z) (l : list K) :
  (∀ k, k ∈ l → m1 !! k = m2 !! k) → lookup_sum m1 l = lookup_sum m2 l.
Proof.
  induction l as [|k l IH]; intros Heq; simpl; [done|].
  rewrite (Heq k) by apply list_elem_of_here.
  rewrite IH; [done|]. intros j Hj. apply Heq. by apply list_elem_of_further.
Qed.

(** Summing the lookups over a duplicate-free list that covers the
    keys gives the sum of the map. *)
Lemma map_sum_list (l : list K) : ∀ m : gmap K Z,
  NoDup l → (∀ k, is_Some (m !! k) → k ∈ l) →
  lookup_sum m l = map_sum m.
Proof.
  induction l as [|k l IH]; intros m Hnd Hdom; simpl.
  - assert (m = ∅) as ->; [|by rewrite map_sum_empty].
    apply map_empty. intros j. destruct (m !! j) eqn:Hj; [|done].
    exfalso. eapply not_elem_of_nil, Hdom; eauto.
  - apply NoDup_cons in Hnd as [Hk Hnd].
    rewrite (map_sum_delete m k). f_equal.
    rewrite <- (IH (delete k m) Hnd).
    + apply lookup_sum_ext. intros j Hj.
      rewrite lookup_delete_ne; [done|]. by intros ->.
    + intros j [x Hj]. apply lookup_delete_Some in Hj as [Hne Hj].
      specialize (Hdom j (ex_intro _ x Hj)).
      apply elem_of_cons in Hdom as [->|]; done.
Qed.
End MapSum.

(** ** Counting addresses *)

Lemma gset_below_size (n : nat) : ∀ X : gset Z,
  (∀ x, x ∈ X → 0 <= x < Z.of_nat n) → (size X ≤ n)%nat.
Proof.
  induction n as [|n IH]; intros X HX.
  - assert (X = ∅) as ->; [|by rewrite size_empty].
    apply set_eq. intros x. split.
    + intros Hx. specialize (HX x Hx). lia.
    + intros Hx. by apply not_elem_of_empty in Hx.
  - assert (Hsub : X ⊆ (X ∖ {[Z.of_nat n]}) ∪ {[Z.of_nat n]}).
    { intros x Hx. apply elem_of_union.
      destruct (decide (x = Z.of_nat n)) as [->|Hne].
      - right. by apply elem_of_singleton.
      - left. apply elem_of_difference. split; [done|].
        by rewrite elem_of_singleton. }
    apply subseteq_size in Hsub.
    rewrite size_union in Hsub.
    2:{ intros x Hx1 Hx2. apply elem_of_difference in Hx1 as [_ Hx1].
        by apply Hx1. }
    rewrite size_singleton in Hsub.
    assert (size (X ∖ {[Z.of_nat n]}) ≤ n)%nat; [|lia].
    apply IH. intros x Hx.
    apply elem_of_difference in Hx as [Hx Hne].
    specialize (HX x Hx).
    rewrite elem_of_singleton in Hne. lia.
Qed.

Lemma ADDRESS_SPACE_nonneg : 0 <= ADDRESS_SPACE.
Proof. unfold ADDRESS_SPACE. by apply Z.pow_nonneg. Qed.

Lemma ADDRESS_SPACE_small : ADDRESS_SPACE < MAX_UINT256.
Proof. by vm_compute. Qed.

(** A finite map keyed by addresses has at most 2^160 entries. *)
Lemma address_map_size {V} (m : gmap Z V) :
  (∀ a, is_Some (m !! a) → is_address a) →
  Z.of_nat (size m) <= ADDRESS_SPACE.
Proof.
  intros Hm.
  rewrite <- (Z2Nat.id ADDRESS_SPACE) by apply ADDRESS_SPACE_nonneg.
  apply inj_le. rewrite <- size_dom.
  apply gset_below_size. intros a Ha.
  rewrite Z2Nat.id by apply ADDRESS_SPACE_nonneg.
  apply Hm. by apply elem_of_dom.
Qed.

(** ** Counting the flags that are set *)

Lemma count_true_empty : count_true ∅ = 0%nat.
Proof. unfold count_true. by rewrite map_filter_empty, map_size_empty. Qed.

Lemma count_true_insert (m : gmap Z bool) a :
  default false (m !! a) = false →
  count_true (<[a := true]> m) = S (count_true m).
Proof.
  intros Ha. unfold count_true.
  rewrite map_filter_insert_True by done.
  apply map_size_insert_None.
  apply map_lookup_filter_None.
  destruct (m !! a) as [b|] eqn:Hm; [right|by left].
  intros x [= <-]. simpl in *. by subst b.
Qed.

Lemma count_true_le_size (m : gmap Z bool) : (count_true m ≤ size m)%nat.
Proof.
  unfold count_true. rewrite <- !size_dom.
  apply subseteq_size, subseteq_dom, map_filter_subseteq.
Qed.

(** ** The functions of the contract *)

Section ContractFacts.
Context {digest : Type} `{EqDecision digest}.
Variable keccak256 : string -> digest.

(** The body of [vote], with the monad unfolded. *)
Lemma vote_eq sender c s :
  vote keccak256 sender c s =
    if hasVoted_at s sender then AlreadyVoted
    else if validCandidate_loop keccak256 (candidates s) c then
      if decide (votes_at s c = MAX_UINT256) then Panic OVERFLOW
      else Ok (tt, {| admin := admin s;
                      hasVoted := <[sender := true]> (hasVoted s);
                      votes := <[c := votes_at s c + 1]> (votes s);
                      candidates := candidates s |})
    else InvalidCandidate.
Proof.
  unfold vote, validCandidate, bind, get, ret, require, checked_incr,
    set_votes, set_hasVoted, AlreadyVoted, InvalidCandidate.
  destruct (hasVoted_at s sender); simpl; [done|].
  destruct (validCandidate_loop keccak256 (candidates s) c); simpl; [|done].
  by destruct (decide (votes_at s c = MAX_UINT256)).
Qed.

Lemma deploy_eq deployer cands :
  deploy deployer cands =
    Ok {| admin := deployer; hasVoted := ∅; votes := ∅; candidates := cands |}.
Proof. reflexivity. Qed.

(** A name of the list is found by the loop. *)
Lemma validCandidate_loop_elem l c :
  c ∈ l → validCandidate_loop keccak256 l c = true.
Proof.
  induction l as [|x l IH]; intros Hc; simpl.
  - by apply not_elem_of_nil in Hc.
  - destruct (decide (keccak256 x = keccak256 c)); [done|].
    apply elem_of_cons in Hc as [->|Hc]; [done|by apply IH].
Qed.

(** Without collisions the loop finds nothing else. *)
Lemma validCandidate_loop_true l c :
  collision_free keccak256 →
  validCandidate_loop keccak256 l c = true → c ∈ l.
Proof.
  intros Hcf. induction l as [|x l IH]; simpl; [done|].
  destruct (decide (keccak256 x = keccak256 c)) as [Heq|_].
  - intros _. apply Hcf in Heq as ->. apply list_elem_of_here.
  - intros Hl. apply list_elem_of_further. by apply IH.
Qed.

Lemma validCandidate_loop_false l c :
  collision_free keccak256 →
  c ∉ l → validCandidate_loop keccak256 l c = false.
Proof.
  intros Hcf Hc.
  destruct (validCandidate_loop keccak256 l c) eqn:Hl; [|done].
  by apply validCandidate_loop_true in Hl.
Qed.

(** The two outcomes of a transaction. *)
Lemma accepted_true s sender c :
  accepted keccak256 s sender c = true →
  hasVoted_at s sender = false ∧
  validCandidate_loop keccak256 (candidates s) c = true ∧
  votes_at s c ≠ MAX_UINT256 ∧
  transact keccak256 s sender c =
    {| admin := admin s;
       hasVoted := <[sender := true]> (hasVoted s);
       votes := <[c := votes_at s c + 1]> (votes s);
       candidates := candidates s |}.
Proof.
  unfold accepted, transact. rewrite vote_eq.
  destruct (hasVoted_at s sender); [done|].
  destruct (validCandidate_loop keccak256 (candidates s) c); [|done].
  by destruct (decide (votes_at s c = MAX_UINT256)).
Qed.

Lemma accepted_false s sender c :
  accepted keccak256 s sender c = false →
  transact keccak256 s sender c = s.
Proof.
  unfold accepted, transact.
  by destruct (vote keccak256 sender c s) as [[]| |].
Qed.

Lemma transact_ok s sender c u s' :
  vote keccak256 sender c s = Ok (u, s') →
  transact keccak256 s sender c = s'.
Proof. intros Hv. unfold transact. by rewrite Hv. Qed.

Lemma transact_revert s sender c reason :
  vote keccak256 sender c s = Revert reason →
  transact keccak256 s sender c = s.
Proof. intros Hv. unfold transact. by rewrite Hv. Qed.

(** [vote] does not read [admin]. *)
Lemma accepted_with_admin a s sender c :
  accepted keccak256 (with_admin a s) sender c
    = accepted keccak256 s sender c.
Proof.
  unfold accepted. rewrite !vote_eq. unfold hasVoted_at, votes_at. simpl.
  destruct (default false (hasVoted s !! sender)); [done|].
  destruct (validCandidate_loop keccak256 (candidates s) c); [|done].
  by destruct (decide (default 0 (votes s !! c) = MAX_UINT256)).
Qed.

(** [candidates] and [admin] are written by the constructor only. *)
Lemma transact_candidates s sender c :
  candidates (transact keccak256 s sender c) = candidates s.
Proof.
  destruct (accepted keccak256 s sender c) eqn:Ha.
  - apply accepted_true in Ha as (_ & _ & _ & ->). done.
  - by rewrite accepted_false.
Qed.

Lemma transact_admin s sender c :
  admin (transact keccak256 s sender c) = admin s.
Proof.
  destruct (accepted keccak256 s sender c) eqn:Ha.
  - apply accepted_true in Ha as (_ & _ & _ & ->). done.
  - by rewrite accepted_false.
Qed.

(** A flag that is set stays set. *)
Lemma transact_hasVoted_mono s sender c v :
  hasVoted_at s v = true →
  hasVoted_at (transact keccak256 s sender c) v = true.
Proof.
  intros Hv. destruct (accepted keccak256 s sender c) eqn:Ha.
  - apply accepted_true in Ha as (_ & _ & _ & ->).
    unfold hasVoted_at in *. simpl.
    destruct (decide (sender = v)) as [->|Hne].
    + by rewrite lookup_insert_eq.
    + by rewrite lookup_insert_ne.
  - by rewrite accepted_false.
Qed.

Lemma run_hasVoted_mono calls : ∀ s v,
  hasVoted_at s v = true → hasVoted_at (run keccak256 s calls) v = true.
Proof.
  induction calls as [|[sender c] calls IH]; intros s v Hv; simpl; [done|].
  by apply IH, transact_hasVoted_mono.
Qed.

(** An accepted vote sets the flag of its sender. *)
Lemma accepted_sets_flag s sender c :
  accepted keccak256 s sender c = true →
  hasVoted_at (transact keccak256 s sender c) sender = true.
Proof.
  intros Ha. apply accepted_true in Ha as (_ & _ & _ & ->).
  unfold hasVoted_at. simpl. by rewrite lookup_insert_eq.
Qed.

Lemma voted_not_accepted s v c :
  hasVoted_at s v = true → accepted keccak256 s v c = false.
Proof. intros Hv. unfold accepted. by rewrite vote_eq, Hv. Qed.

(** No call of a voter whose flag is set is accepted. *)
Lemma voted_never_accepted v calls : ∀ s,
  hasVoted_at s v = true → count_accepted_by keccak256 v s calls = 0%nat.
Proof.
  induction calls as [|[sender c] calls IH]; intros s Hv; simpl; [done|].
  rewrite IH by (by apply transact_hasVoted_mono).
  case_bool_decide as Hs; [|by rewrite andb_false_r].
  subst sender. by rewrite voted_not_accepted.
Qed.

(** In any sequence of calls, from any state, at most one call of a
    given voter is accepted. *)
Lemma accepted_at_most_once v calls : ∀ s,
  (count_accepted_by keccak256 v s calls ≤ 1)%nat.
Proof.
  induction calls as [|[sender c] calls IH]; intros s; simpl; [lia|].
  destruct (accepted keccak256 s sender c) eqn:Ha; simpl; [|apply IH].
  case_bool_decide as Hs; simpl; [|apply IH].
  subst sender. rewrite voted_never_accepted; [lia|].
  by apply accepted_sets_flag.
Qed.

Lemma run_candidates calls : ∀ s,
  candidates (run keccak256 s calls) = candidates s.
Proof.
  induction calls as [|[sender c] calls IH]; intros s; simpl; [done|].
  by rewrite IH, transact_candidates.
Qed.

Lemma run_admin calls : ∀ s,
  admin (run keccak256 s calls) = admin s.
Proof.
  induction calls as [|[sender c] calls IH]; intros s; simpl; [done|].
  by rewrite IH, transact_admin.
Qed.

End ContractFacts.

(** ** Counting along a sequence of transactions *)

Section Ledger.
Context {digest : Type} `{EqDecision digest}.
Variable keccak256 : string -> digest.

Local Abbreviation transact := (transact keccak256).
Local Abbreviation accepted := (accepted keccak256).
Local Abbreviation run := (run keccak256).

(** One transaction adds to the sum of tallies and to the number of
    set flags the same amount: one if accepted, nothing if not. *)
Lemma transact_total s sender c :
  total_votes (transact s sender c)
    = total_votes s + Z.of_nat (bool_to_nat (accepted s sender c)).
Proof.
  destruct (accepted s sender c) eqn:Ha; simpl.
  - apply accepted_true in Ha as (_ & _ & _ & ->).
    unfold total_votes, votes_at. simpl. rewrite map_sum_insert. lia.
  - rewrite accepted_false by done. lia.
Qed.

Lemma transact_voters s sender c :
  voters_voted (transact s sender c)
    = (voters_voted s + bool_to_nat (accepted s sender c))%nat.
Proof.
  destruct (accepted s sender c) eqn:Ha; simpl.
  - apply accepted_true in Ha as (Hv & _ & _ & ->).
    unfold voters_voted. simpl. rewrite count_true_insert by done. lia.
  - rewrite accepted_false by done. lia.
Qed.

Lemma transact_votes_at s sender c name :
  votes_at (transact s sender c) name
    = votes_at s name
      + Z.of_nat (bool_to_nat (accepted s sender c && bool_decide (c = name))).
Proof.
  destruct (accepted s sender c) eqn:Ha; simpl.
  - apply accepted_true in Ha as (_ & _ & _ & ->).
    unfold votes_at. simpl. case_bool_decide as Hc; simpl.
    + subst c. rewrite lookup_insert_eq. simpl. lia.
    + rewrite lookup_insert_ne by done. lia.
  - rewrite accepted_false by done. lia.
Qed.

Lemma run_total calls : ∀ s,
  total_votes (run s calls)
    = total_votes s + Z.of_nat (count_accepted keccak256 s calls).
Proof.
  induction calls as [|[sender c] calls IH]; intros s; simpl; [lia|].
  rewrite IH, transact_total.
  destruct (accepted s sender c); simpl; lia.
Qed.

Lemma run_voters calls : ∀ s,
  voters_voted (run s calls)
    = (voters_voted s + count_accepted keccak256 s calls)%nat.
Proof.
  induction calls as [|[sender c] calls IH]; intros s; simpl; [lia|].
  rewrite IH, transact_voters.
  destruct (accepted s sender c); simpl; lia.
Qed.

Lemma run_votes_at name calls : ∀ s,
  votes_at (run s calls) name
    = votes_at s name + Z.of_nat (count_accepted_for keccak256 name s calls).
Proof.
  induction calls as [|[sender c] calls IH]; intros s; simpl; [lia|].
  rewrite IH, transact_votes_at.
  destruct (accepted s sender c && bool_decide (c = name)); simpl; lia.
Qed.

(** Tallies are written for accepted names only. *)
Lemma transact_votes_dom s sender c name :
  is_Some (votes (transact s sender c) !! name) →
  is_Some (votes s !! name) ∨
  validCandidate_loop keccak256 (candidates s) name = true.
Proof.
  destruct (accepted s sender c) eqn:Ha.
  - apply accepted_true in Ha as (_ & Hv & _ & ->). simpl.
    destruct (decide (c = name)) as [->|Hne]; [by right|].
    rewrite lookup_insert_ne by done. by left.
  - rewrite accepted_false by done. by left.
Qed.

Lemma run_votes_dom calls : ∀ s name,
  is_Some (votes (run s calls) !! name) →
  is_Some (votes s !! name) ∨
  validCandidate_loop keccak256 (candidates s) name = true.
Proof.
  induction calls as [|[sender c] calls IH]; intros s name; simpl;
    [by left|].
  intros Hs. apply IH in Hs as [Hs|Hs].
  - by apply transact_votes_dom in Hs.
  - right. by rewrite transact_candidates in Hs.
Qed.

(** What [sum_getVotes] computes. *)
Lemma sum_getVotes_eq names s :
  sum_getVotes names s = Ok (lookup_sum (votes s) names, s).
Proof.
  induction names as [|c names IH]; simpl; [done|].
  unfold bind, getVotes, get, ret in *. simpl. by rewrite IH.
Qed.

End Ledger.

(** ** Reachable states *)

Section Reachable.
Context {digest : Type} `{EqDecision digest}.
Variable keccak256 : string -> digest.

Local Abbreviation transact := (transact keccak256).
Local Abbreviation accepted := (accepted keccak256).
Local Abbreviation run := (run keccak256).
Local Abbreviation reachable := (reachable keccak256).

(** A sequence of calls from addresses leads to a reachable state. *)
Lemma reachable_run deployer cands calls : ∀ s,
  reachable deployer cands s →
  Forall (fun call => is_address call.1) calls →
  reachable deployer cands (run s calls).
Proof.
  induction calls as [|[sender c] calls IH]; intros s Hs Hall; simpl;
    [done|].
  apply Forall_cons in Hall as [Ha Hall].
  apply IH; [|done]. by apply reach_vote.
Qed.

(** The invariant of the ledger. *)
Lemma reachable_inv deployer cands s :
  reachable deployer cands s →
  admin s = deployer ∧ candidates s = cands ∧
  (∀ a, is_Some (hasVoted s !! a) → is_address a) ∧
  map_Forall (fun _ n => 0 <= n) (votes s) ∧
  total_votes s = Z.of_nat (voters_voted s).
Proof.
  induction 1 as [s0 Hd Hs0|s sender c Hs IH Ha].
  - rewrite deploy_eq in Hs0. injection Hs0 as <-. simpl.
    split_and!; try done.
    intros a [b Hb]. by rewrite lookup_empty in Hb.
  - destruct IH as (Hadm & Hcs & Haddr & Hpos & Hsum).
    rewrite transact_admin, transact_candidates.
    rewrite transact_total, transact_voters, Hsum, Nat2Z.inj_add.
    split_and!; try done.
    + destruct (accepted s sender c) eqn:Hacc.
      * apply accepted_true in Hacc as (_ & _ & _ & ->). simpl.
        intros x Hsome. destruct (decide (sender = x)) as [<-|Hne]; [done|].
        rewrite lookup_insert_ne in Hsome by done. by apply Haddr.
      * by rewrite accepted_false.
    + destruct (accepted s sender c) eqn:Hacc.
      * apply accepted_true in Hacc as (_ & _ & _ & ->). simpl.
        apply map_Forall_insert_2; [|done].
        assert (0 <= votes_at s c); [|lia].
        unfold votes_at. destruct (votes s !! c) as [n|] eqn:Hn; simpl;
          [by apply (Hpos c)|done].
      * by rewrite accepted_false.
Qed.

(** No tally of a reachable state is at the top of the uint256 range:
    there are fewer addresses than that. *)
Lemma reachable_below_max deployer cands s name :
  reachable deployer cands s → votes_at s name < MAX_UINT256.
Proof.
  intros Hs. apply reachable_inv in Hs as (_ & _ & Haddr & Hpos & Hsum).
  pose proof (map_sum_lookup_le (votes s) name Hpos) as Hle.
  fold (votes_at s name) in Hle. fold (total_votes s) in Hle.
  pose proof (count_true_le_size (hasVoted s)) as Hct.
  fold (voters_voted s) in Hct.
  pose proof (address_map_size (hasVoted s) Haddr) as Hsz.
  pose proof ADDRESS_SPACE_small. lia.
Qed.

(** Without collisions only names of the list have a tally. *)
Lemma reachable_votes_dom deployer cands s name :
  collision_free keccak256 →
  reachable deployer cands s →
  is_Some (votes s !! name) → name ∈ cands.
Proof.
  intros Hcf. induction 1 as [s0 Hd Hs0|s sender c Hs IH Ha]; intros Hn.
  - rewrite deploy_eq in Hs0. injection Hs0 as <-. simpl in Hn.
    destruct Hn as [n Hn]. by rewrite lookup_empty in Hn.
  - apply transact_votes_dom in Hn as [Hn|Hn]; [by apply IH|].
    apply reachable_inv in Hs as (_ & <- & _).
    by apply validCandidate_loop_true in Hn.
Qed.

Lemma reachable_votes_outside deployer cands s name :
  collision_free keccak256 →
  reachable deployer cands s →
  name ∉ cands → votes_at s name = 0.
Proof.
  intros Hcf Hs Hn. unfold votes_at.
  destruct (votes s !! name) as [n|] eqn:Hl; [|done].
  exfalso. apply Hn. eapply reachable_votes_dom; eauto.
Qed.

End Reachable.

(** * The properties of the ballot ledger *)

Section Properties.
Context {digest : Type} `{EqDecision digest}.
Variable keccak256 : string -> digest.

Local Abbreviation vote := (vote keccak256).
Local Abbreviation transact := (transact keccak256).
Local Abbreviation accepted := (accepted keccak256).
Local Abbreviation run := (run keccak256).
Local Abbreviation reachable := (reachable keccak256).

(** A call that passes both checks below the top of the uint256 range
    writes the tally and the flag. *)
Lemma vote_ok s v c :
  hasVoted_at s v = false →
  validCandidate_loop keccak256 (candidates s) c = true →
  votes_at s c < MAX_UINT256 →
  vote v c s =
    Ok (tt, {| admin := admin s;
               hasVoted := <[v := true]> (hasVoted s);
               votes := <[c := votes_at s c + 1]> (votes s);
               candidates := candidates s |}).
Proof.
  intros Hv Hc Hlt. rewrite vote_eq, Hv, Hc.
  destruct (decide (votes_at s c = MAX_UINT256)); [lia|done].
Qed.

(** Every transaction leaves the storage as it was or applies both
    writes of [vote]. *)
Lemma transact_all_or_nothing s v c :
  transact s v c = s ∨
  (votes_at (transact s v c) c = votes_at s c + 1 ∧
   hasVoted_at s v = false ∧
   hasVoted_at (transact s v c) v = true).
Proof.
  destruct (accepted s v c) eqn:Ha.
  - right. rewrite transact_votes_at, Ha, bool_decide_eq_true_2 by done.
    apply accepted_true in Ha as (Hv & _ & _ & ->).
    unfold hasVoted_at at 2. simpl. rewrite lookup_insert_eq.
    split_and!; [lia|done|done].
  - left. by apply accepted_false.
Qed.

(** C1. In every state of a deployed ledger, a voter [v] whose flag is
    false voting for a name [c] of the constructed list succeeds: the
    call returns normally, the tally of [c] is one more than before and
    the flag of [v] is true.  Both writes come together: any
    transaction on that state either changes nothing or has applied
    both. *)
Theorem vote_succeeds deployer cands s v c :
  reachable deployer cands s →
  hasVoted_at s v = false →
  c ∈ cands →
  ∃ s', vote v c s = Ok (tt, s') ∧
        transact s v c = s' ∧
        votes_at s' c = votes_at s c + 1 ∧
        hasVoted_at s' v = true ∧
        ∀ v0 c0,
          transact s v0 c0 = s ∨
          (votes_at (transact s v0 c0) c0 = votes_at s c0 + 1 ∧
           hasVoted_at s v0 = false ∧
           hasVoted_at (transact s v0 c0) v0 = true).
Proof.
  intros Hs Hv Hc.
  pose proof (reachable_below_max keccak256 _ _ _ c Hs) as Hlt.
  apply reachable_inv in Hs as (_ & Hcs & _).
  assert (Hvalid : validCandidate_loop keccak256 (candidates s) c = true).
  { rewrite Hcs. by apply validCandidate_loop_elem. }
  pose proof (vote_ok s v c Hv Hvalid Hlt) as Hvote.
  eexists. split; [exact Hvote|].
  split; [by apply transact_ok in Hvote|].
  split; [unfold votes_at at 1; simpl; by rewrite lookup_insert_eq|].
  split; [unfold hasVoted_at; simpl; by rewrite lookup_insert_eq|].
  intros v0 c0. apply transact_all_or_nothing.
Qed.

(** C2. After construction and any sequence of vote calls, accepted or
    rejected, the sum of the tallies over all names equals the number
    of voters whose flag is true; both equal the number N of accepted
    calls of the sequence, and so does the sum of what getVotes returns
    over the distinct names of the candidate list. *)
Theorem tally_sum_is_voter_count deployer cands s0 calls :
  collision_free keccak256 →
  deploy deployer cands = Ok s0 →
  total_votes (run s0 calls) = Z.of_nat (voters_voted (run s0 calls)) ∧
  voters_voted (run s0 calls) = count_accepted keccak256 s0 calls ∧
  sum_getVotes (remove_dups cands) (run s0 calls)
    = Ok (Z.of_nat (count_accepted keccak256 s0 calls), run s0 calls).
Proof.
  intros Hcf Hd. rewrite deploy_eq in Hd. injection Hd as <-.
  rewrite run_total, run_voters.
  unfold total_votes at 1, voters_voted at 1 2. simpl.
  rewrite map_sum_empty, count_true_empty. simpl.
  split_and!; [done|done|].
  rewrite sum_getVotes_eq. do 2 f_equal.
  rewrite map_sum_list.
  - fold (total_votes (run {| admin := deployer; hasVoted := ∅;
                              votes := ∅; candidates := cands |} calls)).
    rewrite run_total. unfold total_votes. simpl.
    by rewrite map_sum_empty.
  - apply NoDup_remove_dups.
  - intros name Hn. apply elem_of_remove_dups.
    apply run_votes_dom in Hn as [[n Hn]|Hn]; simpl in Hn.
    + by rewrite lookup_empty in Hn.
    + by apply (validCandidate_loop_true keccak256).
Qed.

(** C3. Once the flag of a voter [v] is true, it is true after any
    further sequence of calls: there is no transition back.  None of the
    calls of [v] in that sequence is accepted, and every later vote of
    [v], for any name whether a candidate or not, fails with
    AlreadyVoted and changes nothing. *)
Theorem voted_is_final s v calls c :
  hasVoted_at s v = true →
  hasVoted_at (run s calls) v = true ∧
  count_accepted_by keccak256 v s calls = 0%nat ∧
  vote v c (run s calls) = AlreadyVoted ∧
  transact (run s calls) v c = run s calls.
Proof.
  intros Hv.
  pose proof (run_hasVoted_mono keccak256 calls s v Hv) as Hr.
  assert (Hvote : vote v c (run s calls) = AlreadyVoted).
  { by rewrite vote_eq, Hr. }
  split_and!; [done| |done|].
  - by apply voted_never_accepted.
  - by apply transact_revert in Hvote.
Qed.

(** C4. A vote by a voter whose flag is false for a name that is not in
    the candidate list fails with InvalidCandidate, and the storage
    after the call is the storage before it: every tally and every flag
    is unchanged. *)
Theorem invalid_candidate_rejected s v c :
  collision_free keccak256 →
  hasVoted_at s v = false →
  c ∉ candidates s →
  vote v c s = InvalidCandidate ∧
  transact s v c = s ∧
  (∀ name, votes_at (transact s v c) name = votes_at s name) ∧
  (∀ a, hasVoted_at (transact s v c) a = hasVoted_at s a).
Proof.
  intros Hcf Hv Hc.
  assert (Hvote : vote v c s = InvalidCandidate).
  { rewrite vote_eq, Hv.
    by rewrite (validCandidate_loop_false keccak256 _ _ Hcf Hc). }
  assert (Ht : transact s v c = s).
  { by apply transact_revert in Hvote. }
  rewrite Ht. done.
Qed.

(** Without collisions, no call sequence gives a tally to a name
    outside the list of a freshly deployed ledger. *)
Lemma deployed_votes_outside deployer cands calls name :
  collision_free keccak256 →
  name ∉ cands →
  votes_at (run {| admin := deployer; hasVoted := ∅; votes := ∅;
                   candidates := cands |} calls) name = 0.
Proof.
  intros Hcf Hn. unfold votes_at.
  destruct (votes (run _ calls) !! name) as [n|] eqn:Hl; [|done].
  exfalso. apply Hn.
  destruct (run_votes_dom keccak256 calls _ name (mk_is_Some _ _ Hl))
    as [[x Hx]|Hv]; simpl in *.
  - by rewrite lookup_empty in Hx.
  - by apply (validCandidate_loop_true keccak256).
Qed.

(** C5. getVotes never fails and writes nothing: it returns the tally
    of the name it is given.  That is zero for every name right after
    construction, and zero in every later state for a name that is not
    in the candidate list, the same answer as for a candidate without
    votes. *)
Theorem getVotes_reads_tally deployer cands s0 calls :
  collision_free keccak256 →
  deploy deployer cands = Ok s0 →
  (∀ s name, getVotes name s = Ok (votes_at s name, s)) ∧
  (∀ name, getVotes name s0 = Ok (0, s0)) ∧
  (∀ name, name ∉ cands →
     getVotes name (run s0 calls) = Ok (0, run s0 calls)) ∧
  (∀ name c, name ∉ cands → c ∈ cands → votes_at (run s0 calls) c = 0 →
     ∃ n, getVotes name (run s0 calls) = Ok (n, run s0 calls) ∧
          getVotes c (run s0 calls) = Ok (n, run s0 calls)).
Proof.
  intros Hcf Hd. rewrite deploy_eq in Hd. injection Hd as <-.
  assert (Hget : ∀ s name, getVotes name s = Ok (votes_at s name, s)) by done.
  split_and!; [done|done| |].
  - intros name Hn. rewrite Hget.
    by rewrite (deployed_votes_outside deployer cands calls name Hcf Hn).
  - intros name c Hn Hc H0. exists 0. rewrite !Hget, H0.
    by rewrite (deployed_votes_outside deployer cands calls name Hcf Hn).
Qed.

(** C6, as the code has it.  When the constructed list holds a name at
    two positions, the accepted votes for that name are not split: the
    one tally of the name counts them all, and getVotes returns exactly
    the number of accepted votes cast for it. *)
Theorem duplicates_share_one_tally deployer cands s0 calls name i j :
  i ≠ j → cands !! i = Some name → cands !! j = Some name →
  deploy deployer cands = Ok s0 →
  getVotes name (run s0 calls)
    = Ok (Z.of_nat (count_accepted_for keccak256 name s0 calls),
          run s0 calls).
Proof.
  intros _ _ _ Hd. rewrite deploy_eq in Hd. injection Hd as <-.
  unfold getVotes, bind, get, ret. rewrite run_votes_at. done.
Qed.

(** C7. Construction with the empty list succeeds, with all tallies
    and flags at their defaults; from then on every vote, by any voter
    for any name, fails with InvalidCandidate, and the storage stays
    what construction made it. *)
Theorem empty_list_rejects_all deployer :
  ∃ s0, deploy deployer [] = Ok s0 ∧
        hasVoted s0 = ∅ ∧ votes s0 = ∅ ∧
        ∀ calls v c,
          run s0 calls = s0 ∧
          vote v c (run s0 calls) = InvalidCandidate ∧
          transact (run s0 calls) v c = s0.
Proof.
  eexists. split; [apply deploy_eq|]. simpl. split_and!; [done|done|].
  set (s0 := {| admin := deployer; hasVoted := ∅; votes := ∅;
                candidates := [] |}).
  assert (Hvote : ∀ v c, vote v c s0 = InvalidCandidate).
  { intros v c. by rewrite vote_eq. }
  assert (Hrun : ∀ calls, run s0 calls = s0).
  { induction calls as [|[sender c] calls IH]; simpl; [done|].
    by rewrite (transact_revert keccak256 _ _ _ _ (Hvote sender c)). }
  intros calls v c. rewrite Hrun. split_and!; [done|done|].
  by apply (transact_revert keccak256 _ _ _ _ (Hvote v c)).
Qed.

(** C8. The admin field gates nothing.  On two storages that differ in
    admin only, a vote with the same arguments has the same outcome
    (the same rejection, or success with the same writes, admin kept),
    getVotes and the hasVoted getter return the same values, and
    whether a vote is accepted is the same when the caller is the admin
    and when somebody else is. *)
Theorem admin_gates_nothing s1 s2 v c a :
  admin_variant s1 s2 →
  match vote v c s1, vote v c s2 with
  | Ok (_, t1), Ok (_, t2) =>
      admin_variant t1 t2 ∧ admin t1 = admin s1 ∧ admin t2 = admin s2
  | Revert r1, Revert r2 => r1 = r2
  | Panic k1, Panic k2 => k1 = k2
  | _, _ => False
  end ∧
  (∃ n, getVotes c s1 = Ok (n, s1) ∧ getVotes c s2 = Ok (n, s2)) ∧
  (∃ b, get_hasVoted a s1 = Ok (b, s1) ∧ get_hasVoted a s2 = Ok (b, s2)) ∧
  accepted (with_admin v s1) v c = accepted (with_admin a s1) v c.
Proof.
  intros (Hh & Hv & Hc). split_and!.
  - rewrite !vote_eq. unfold hasVoted_at, votes_at.
    rewrite Hh, Hv, Hc.
    destruct (default false (hasVoted s2 !! v)); [done|].
    destruct (validCandidate_loop keccak256 (candidates s2) c); [|done].
    destruct (decide (default 0 (votes s2 !! c) = MAX_UINT256)); [done|].
    unfold admin_variant. simpl. done.
  - exists (votes_at s1 c). unfold getVotes, bind, get, ret, votes_at.
    by rewrite Hv.
  - exists (hasVoted_at s1 a).
    unfold get_hasVoted, bind, get, ret, hasVoted_at. by rewrite Hh.
  - by rewrite !accepted_with_admin.
Qed.

(** C9. The frame of a successful vote for [c] by [v]: the tally of
    every other name, the flag of every other voter, the candidate
    list and the admin are after the call what they were before. *)
Theorem vote_frame s v c u s' :
  vote v c s = Ok (u, s') →
  (∀ name, name ≠ c →
     votes s' !! name = votes s !! name ∧
     votes_at s' name = votes_at s name) ∧
  (∀ a, a ≠ v →
     hasVoted s' !! a = hasVoted s !! a ∧
     hasVoted_at s' a = hasVoted_at s a) ∧
  candidates s' = candidates s ∧
  admin s' = admin s.
Proof.
  rewrite vote_eq.
  destruct (hasVoted_at s v); [done|].
  destruct (validCandidate_loop keccak256 (candidates s) c); [|done].
  destruct (decide (votes_at s c = MAX_UINT256)); [done|].
  intros [= <- <-]. unfold votes_at, hasVoted_at. simpl.
  split_and!; [| |done|done].
  - intros name Hn. by rewrite lookup_insert_ne.
  - intros a Ha. by rewrite lookup_insert_ne.
Qed.

(** C10. In every state reachable from construction, the tally of a
    name that is not in the constructed list is zero; so when getVotes
    returns a value other than zero, the name is a constructed
    candidate. *)
Theorem tally_outside_list_zero deployer cands s name :
  collision_free keccak256 →
  reachable deployer cands s →
  (name ∉ cands → votes_at s name = 0) ∧
  (∀ n s', getVotes name s = Ok (n, s') → n ≠ 0 → name ∈ cands).
Proof.
  intros Hcf Hs. split.
  - by apply (reachable_votes_outside keccak256 deployer).
  - intros n s' [= <- <-] Hn.
    destruct (decide (name ∈ cands)) as [|Hout]; [done|].
    by rewrite (reachable_votes_outside keccak256 deployer cands s name)
      in Hn.
Qed.

End Properties.

(** * The ledger on concrete inputs *)

Lemma ideal_collision_free : collision_free ideal_keccak256.
Proof. intros a b Hab. exact Hab. Qed.

Lemma is_address_1 : is_address 1.
Proof. by vm_compute. Qed.

Lemma is_address_10 : is_address 10.
Proof. by vm_compute. Qed.

Lemma is_address_11 : is_address 11.
Proof. by vm_compute. Qed.

Lemma ledger0_reachable : reachable ideal_keccak256 1 deploy_example ledger0.
Proof. apply reach_deploy; [apply is_address_1|reflexivity]. Qed.

(** Scenario A: nobody has a vote after construction. *)
Example scenario_A :
  deploy 1 deploy_example = Ok ledger0 ∧
  getVotes "Alice" ledger0 = Ok (0, ledger0) ∧
  getVotes "Bob" ledger0 = Ok (0, ledger0) ∧
  getVotes "Charlie" ledger0 = Ok (0, ledger0).
Proof. by vm_compute. Qed.

(** Scenario B: X votes Bob. *)
Example scenario_B :
  let s := run ideal_keccak256 ledger0 [(10, "Bob")] in
  accepted ideal_keccak256 ledger0 10 "Bob" = true ∧
  votes_at s "Bob" = 1 ∧ hasVoted_at s 10 = true.
Proof. by vm_compute. Qed.

(** Scenario C: X again, for Alice. *)
Example scenario_C :
  let s := run ideal_keccak256 ledger0 [(10, "Bob")] in
  vote ideal_keccak256 10 "Alice" s = AlreadyVoted ∧
  votes_at (transact ideal_keccak256 s 10 "Alice") "Alice" = 0.
Proof. by vm_compute. Qed.

(** Scenario D: Y votes Dave, who is no candidate. *)
Example scenario_D :
  let s := run ideal_keccak256 ledger0 [(10, "Bob"); (10, "Alice")] in
  vote ideal_keccak256 11 "Dave" s = InvalidCandidate ∧
  transact ideal_keccak256 s 11 "Dave" = s ∧
  hasVoted_at (transact ideal_keccak256 s 11 "Dave") 11 = false.
Proof. by vm_compute. Qed.

(** Scenario E: Y votes Charlie; two votes in all. *)
Example scenario_E :
  let s := run ideal_keccak256 ledger0 scenario_calls in
  hasVoted_at s 11 = true ∧ total_votes s = 2 ∧
  count_accepted ideal_keccak256 ledger0 scenario_calls = 2%nat ∧
  sum_getVotes deploy_example s = Ok (2, s).
Proof. by vm_compute. Qed.

(** At the top of the uint256 range the increment panics; no reachable
    state has such a tally ([reachable_below_max]). *)
Example vote_at_max_panics :
  vote ideal_keccak256 10 "Bob"
    {| admin := 1; hasVoted := ∅; votes := {[ "Bob" := MAX_UINT256 ]};
       candidates := deploy_example |} = Panic OVERFLOW.
Proof. by vm_compute. Qed.

(** Over a list with a repeated name, summing getVotes entry by entry
    counts the one tally twice. *)
Example sum_over_duplicate_entries :
  let s := run ideal_keccak256 dup_ledger [(10, "Alice")] in
  sum_getVotes dup_example s = Ok (2, s) ∧
  sum_getVotes (remove_dups dup_example) s = Ok (1, s).
Proof. by vm_compute. Qed.

(** ** The properties at concrete ledgers *)

Lemma vote_succeeds_witness :
  reachable ideal_keccak256 1 deploy_example ledger0 ∧
  hasVoted_at ledger0 10 = false ∧
  "Bob" ∈ deploy_example ∧
  ∃ s', vote ideal_keccak256 10 "Bob" ledger0 = Ok (tt, s') ∧
        transact ideal_keccak256 ledger0 10 "Bob" = s' ∧
        votes_at s' "Bob" = votes_at ledger0 "Bob" + 1 ∧
        hasVoted_at s' 10 = true ∧
        ∀ v0 c0,
          transact ideal_keccak256 ledger0 v0 c0 = ledger0 ∨
          (votes_at (transact ideal_keccak256 ledger0 v0 c0) c0
             = votes_at ledger0 c0 + 1 ∧
           hasVoted_at ledger0 v0 = false ∧
           hasVoted_at (transact ideal_keccak256 ledger0 v0 c0) v0 = true).
Proof.
  assert (Hr : reachable ideal_keccak256 1 deploy_example ledger0).
  { apply reach_deploy; [by vm_compute|reflexivity]. }
  assert (Hin : "Bob" ∈ deploy_example).
  { unfold deploy_example. apply list_elem_of_further, list_elem_of_here. }
  split; [exact Hr|]. split; [reflexivity|]. split; [exact Hin|].
  exact (vote_succeeds ideal_keccak256 1 deploy_example ledger0 10 "Bob"
           Hr eq_refl Hin).
Defined.

Lemma tally_sum_is_voter_count_witness :
  collision_free ideal_keccak256 ∧
  deploy 1 deploy_example = Ok ledger0 ∧
  total_votes (run ideal_keccak256 ledger0 scenario_calls)
    = Z.of_nat (voters_voted (run ideal_keccak256 ledger0 scenario_calls)) ∧
  voters_voted (run ideal_keccak256 ledger0 scenario_calls)
    = count_accepted ideal_keccak256 ledger0 scenario_calls ∧
  sum_getVotes (remove_dups deploy_example)
      (run ideal_keccak256 ledger0 scenario_calls)
    = Ok (Z.of_nat (count_accepted ideal_keccak256 ledger0 scenario_calls),
          run ideal_keccak256 ledger0 scenario_calls).
Proof.
  split; [exact ideal_collision_free|]. split; [reflexivity|].
  exact (tally_sum_is_voter_count ideal_keccak256 1 deploy_example ledger0
           scenario_calls ideal_collision_free eq_refl).
Defined.

Lemma voted_is_final_witness :
  hasVoted_at (transact ideal_keccak256 ledger0 10 "Bob") 10 = true ∧
  hasVoted_at
    (run ideal_keccak256 (transact ideal_keccak256 ledger0 10 "Bob")
       [(11, "Charlie"); (10, "Bob")]) 10 = true ∧
  count_accepted_by ideal_keccak256 10
    (transact ideal_keccak256 ledger0 10 "Bob")
    [(11, "Charlie"); (10, "Bob")] = 0%nat ∧
  vote ideal_keccak256 10 "Alice"
    (run ideal_keccak256 (transact ideal_keccak256 ledger0 10 "Bob")
       [(11, "Charlie"); (10, "Bob")]) = AlreadyVoted ∧
  transact ideal_keccak256
    (run ideal_keccak256 (transact ideal_keccak256 ledger0 10 "Bob")
       [(11, "Charlie"); (10, "Bob")]) 10 "Alice"
    = run ideal_keccak256 (transact ideal_keccak256 ledger0 10 "Bob")
        [(11, "Charlie"); (10, "Bob")].
Proof.
  assert (Hv : hasVoted_at (transact ideal_keccak256 ledger0 10 "Bob") 10 = true).
  { by vm_compute. }
  split; [exact Hv|].
  exact (voted_is_final ideal_keccak256
           (transact ideal_keccak256 ledger0 10 "Bob") 10
           [(11, "Charlie"); (10, "Bob")] "Alice" Hv).
Defined.

Lemma invalid_candidate_rejected_witness :
  collision_free ideal_keccak256 ∧
  hasVoted_at ledger0 11 = false ∧
  ("Dave" ∉ candidates ledger0) ∧
  vote ideal_keccak256 11 "Dave" ledger0 = InvalidCandidate ∧
  transact ideal_keccak256 ledger0 11 "Dave" = ledger0 ∧
  (∀ name, votes_at (transact ideal_keccak256 ledger0 11 "Dave") name
             = votes_at ledger0 name) ∧
  (∀ a, hasVoted_at (transact ideal_keccak256 ledger0 11 "Dave") a
          = hasVoted_at ledger0 a).
Proof.
  assert (Hout : "Dave" ∉ candidates ledger0).
  { simpl. unfold deploy_example. intros Hin.
    apply list_elem_of_In in Hin. simpl in Hin.
    destruct Hin as [H|[H|[H|[]]]]; discriminate H. }
  split; [exact ideal_collision_free|]. split; [reflexivity|].
  split; [exact Hout|].
  exact (invalid_candidate_rejected ideal_keccak256 ledger0 11 "Dave"
           ideal_collision_free eq_refl Hout).
Defined.

Lemma getVotes_reads_tally_witness :
  collision_free ideal_keccak256 ∧
  deploy 1 deploy_example = Ok ledger0 ∧
  (∀ s name, getVotes name s = Ok (votes_at s name, s)) ∧
  (∀ name, getVotes name ledger0 = Ok (0, ledger0)) ∧
  (∀ name, name ∉ deploy_example →
     getVotes name (run ideal_keccak256 ledger0 scenario_calls)
       = Ok (0, run ideal_keccak256 ledger0 scenario_calls)) ∧
  (∀ name c, name ∉ deploy_example → c ∈ deploy_example →
     votes_at (run ideal_keccak256 ledger0 scenario_calls) c = 0 →
     ∃ n, getVotes name (run ideal_keccak256 ledger0 scenario_calls)
            = Ok (n, run ideal_keccak256 ledger0 scenario_calls) ∧
          getVotes c (run ideal_keccak256 ledger0 scenario_calls)
            = Ok (n, run ideal_keccak256 ledger0 scenario_calls)).
Proof.
  split; [exact ideal_collision_free|]. split; [reflexivity|].
  exact (getVotes_reads_tally ideal_keccak256 1 deploy_example ledger0
           scenario_calls ideal_collision_free eq_refl).
Defined.

(** C6 as the specification words it fails on the code: with Alice
    named twice in the list, no sequence of calls makes getVotes return
    fewer than the accepted votes for Alice. *)
Lemma duplicates_do_not_split_votes :
  (dup_example !! 0%nat = Some "Alice" ∧ dup_example !! 1%nat = Some "Alice" ∧
   deploy 1 dup_example = Ok dup_ledger) ∧
  ¬ ∃ calls n s',
      getVotes "Alice" (run ideal_keccak256 dup_ledger calls) = Ok (n, s') ∧
      n < Z.of_nat (count_accepted_for ideal_keccak256 "Alice" dup_ledger calls).
Proof.
  split; [by vm_compute|].
  intros (calls & n & s' & Hget & Hlt).
  unfold getVotes, bind, get, ret in Hget. injection Hget as <- _.
  rewrite run_votes_at in Hlt. unfold votes_at in Hlt. simpl in Hlt.
  rewrite lookup_empty in Hlt. simpl in Hlt. lia.
Qed.

Lemma duplicates_share_one_tally_witness :
  (0 ≠ 1)%nat ∧
  dup_example !! 0%nat = Some "Alice" ∧
  dup_example !! 1%nat = Some "Alice" ∧
  deploy 1 dup_example = Ok dup_ledger ∧
  getVotes "Alice"
      (run ideal_keccak256 dup_ledger [(10, "Alice"); (11, "Alice")])
    = Ok (Z.of_nat (count_accepted_for ideal_keccak256 "Alice" dup_ledger
                      [(10, "Alice"); (11, "Alice")]),
          run ideal_keccak256 dup_ledger [(10, "Alice"); (11, "Alice")]).
Proof.
  assert (Hne : (0 ≠ 1)%nat) by discriminate.
  split; [exact Hne|]. split; [reflexivity|]. split; [reflexivity|].
  split; [reflexivity|].
  exact (duplicates_share_one_tally ideal_keccak256 1 dup_example dup_ledger
           [(10, "Alice"); (11, "Alice")] "Alice" 0%nat 1%nat
           Hne eq_refl eq_refl eq_refl).
Defined.

(** Two accepted votes for the repeated name: getVotes returns 2. *)
Example duplicate_tally_counts_both :
  getVotes "Alice"
      (run ideal_keccak256 dup_ledger [(10, "Alice"); (11, "Alice")])
    = Ok (2, run ideal_keccak256 dup_ledger [(10, "Alice"); (11, "Alice")]) ∧
  count_accepted_for ideal_keccak256 "Alice" dup_ledger
    [(10, "Alice"); (11, "Alice")] = 2%nat.
Proof. by vm_compute. Qed.

Lemma admin_gates_nothing_witness :
  admin_variant ledger0 (with_admin 10 ledger0) ∧
  match vote ideal_keccak256 10 "Bob" ledger0,
        vote ideal_keccak256 10 "Bob" (with_admin 10 ledger0) with
  | Ok (_, t1), Ok (_, t2) =>
      admin_variant t1 t2 ∧ admin t1 = admin ledger0 ∧
      admin t2 = admin (with_admin 10 ledger0)
  | Revert r1, Revert r2 => r1 = r2
  | Panic k1, Panic k2 => k1 = k2
  | _, _ => False
  end ∧
  (∃ n, getVotes "Bob" ledger0 = Ok (n, ledger0) ∧
        getVotes "Bob" (with_admin 10 ledger0)
          = Ok (n, with_admin 10 ledger0)) ∧
  (∃ b, get_hasVoted 11 ledger0 = Ok (b, ledger0) ∧
        get_hasVoted 11 (with_admin 10 ledger0)
          = Ok (b, with_admin 10 ledger0)) ∧
  accepted ideal_keccak256 (with_admin 10 ledger0) 10 "Bob"
    = accepted ideal_keccak256 (with_admin 11 ledger0) 10 "Bob".
Proof.
  assert (Hvar : admin_variant ledger0 (with_admin 10 ledger0)).
  { unfold admin_variant. simpl. split; [reflexivity|].
    split; reflexivity. }
  split; [exact Hvar|].
  exact (admin_gates_nothing ideal_keccak256 ledger0 (with_admin 10 ledger0)
           10 "Bob" 11 Hvar).
Defined.

Lemma vote_frame_witness :
  vote ideal_keccak256 10 "Bob" ledger0
    = Ok (tt, transact ideal_keccak256 ledger0 10 "Bob") ∧
  (∀ name, name ≠ "Bob" →
     votes (transact ideal_keccak256 ledger0 10 "Bob") !! name
       = votes ledger0 !! name ∧
     votes_at (transact ideal_keccak256 ledger0 10 "Bob") name
       = votes_at ledger0 name) ∧
  (∀ a, a ≠ 10 →
     hasVoted (transact ideal_keccak256 ledger0 10 "Bob") !! a
       = hasVoted ledger0 !! a ∧
     hasVoted_at (transact ideal_keccak256 ledger0 10 "Bob") a
       = hasVoted_at ledger0 a) ∧
  candidates (transact ideal_keccak256 ledger0 10 "Bob") = candidates ledger0 ∧
  admin (transact ideal_keccak256 ledger0 10 "Bob") = admin ledger0.
Proof.
  assert (Hv : vote ideal_keccak256 10 "Bob" ledger0
                 = Ok (tt, transact ideal_keccak256 ledger0 10 "Bob")).
  { by vm_compute. }
  split; [exact Hv|].
  exact (vote_frame ideal_keccak256 ledger0 10 "Bob" tt
           (transact ideal_keccak256 ledger0 10 "Bob") Hv).
Defined.

Lemma tally_outside_list_zero_witness :
  collision_free ideal_keccak256 ∧
  reachable ideal_keccak256 1 deploy_example
    (run ideal_keccak256 ledger0 scenario_calls) ∧
  ("Dave" ∉ deploy_example →
     votes_at (run ideal_keccak256 ledger0 scenario_calls) "Dave" = 0) ∧
  (∀ n s', getVotes "Dave" (run ideal_keccak256 ledger0 scenario_calls)
             = Ok (n, s') →
           n ≠ 0 → "Dave" ∈ deploy_example).
Proof.
  assert (Hr : reachable ideal_keccak256 1 deploy_example
                 (run ideal_keccak256 ledger0 scenario_calls)).
  { apply reachable_run.
    - apply reach_deploy; [by vm_compute|reflexivity].
    - unfold scenario_calls. repeat apply Forall_cons_2; try apply Forall_nil_2;
        by vm_compute. }
  split; [exact ideal_collision_free|]. split; [exact Hr|].
  exact (tally_outside_list_zero ideal_keccak256 1 deploy_example
           (run ideal_keccak256 ledger0 scenario_calls) "Dave"
           ideal_collision_free Hr).
Defined.

(** * Further properties of the contract *)

Section MoreContract.
Context {digest : Type} `{EqDecision digest}.
Variable keccak256 : string -> digest.

Local Abbreviation vote := (vote keccak256).
Local Abbreviation transact := (transact keccak256).
Local Abbreviation run := (run keccak256).
Local Abbreviation reachable := (reachable keccak256).

(** X1. The candidate list, the admin and with them the verdict of
    [validCandidate] on every name are fixed by the constructor: no
    sequence of [vote] calls changes them. *)
Theorem constructor_fixes_candidates deployer cands s0 calls :
  deploy deployer cands = Ok s0 →
  candidates (run s0 calls) = cands ∧
  admin (run s0 calls) = deployer ∧
  ∀ name,
    validCandidate keccak256 name (run s0 calls)
      = Ok (validCandidate_loop keccak256 cands name, run s0 calls).
Proof.
  intros Hd. rewrite deploy_eq in Hd. injection Hd as <-.
  assert (Hc : candidates (run {| admin := deployer; hasVoted := ∅;
                  votes := ∅; candidates := cands |} calls) = cands).
  { by rewrite run_candidates. }
  split_and!; [done|by rewrite run_admin|].
  intros name. unfold validCandidate, bind, get, ret. by rewrite Hc.
Qed.

(** X2. [validCandidate] compares digests: it answers true exactly when some
    entry of the list has the digest of the name. *)
Theorem validCandidate_by_digest (l : list string) (name : string) :
  validCandidate_loop keccak256 l name = true ↔
  ∃ x, x ∈ l ∧ keccak256 x = keccak256 name.
Proof.
  induction l as [|x l IH]; simpl.
  - split; [done|]. intros (y & Hy & _). by apply not_elem_of_nil in Hy.
  - destruct (decide (keccak256 x = keccak256 name)) as [Heq|Hne].
    + split; [|done]. intros _. exists x. split; [apply list_elem_of_here|done].
    + rewrite IH. split.
      * intros (y & Hy & Hd). exists y. split; [|done].
        by apply list_elem_of_further.
      * intros (y & Hy & Hd). exists y. split; [|done].
        apply elem_of_cons in Hy as [->|Hy]; done.
Qed.

(** Without overflow, acceptance in a reachable state is decided by the
    flag of the sender and the digest comparison alone. *)
Lemma accepted_reachable deployer cands s v c :
  reachable deployer cands s →
  accepted keccak256 s v c
    = negb (hasVoted_at s v) && validCandidate_loop keccak256 cands c.
Proof.
  intros Hs.
  pose proof (reachable_below_max keccak256 _ _ _ c Hs) as Hlt.
  apply reachable_inv in Hs as (_ & <- & _).
  unfold accepted. rewrite vote_eq.
  destruct (hasVoted_at s v); [done|]. simpl.
  destruct (validCandidate_loop keccak256 (candidates s) c); [|done].
  destruct (decide (votes_at s c = MAX_UINT256)); [lia|done].
Qed.

(** X3. In a reachable state no tally exceeds the number of voters that
    have voted, and there are at most 2^160 of those; so the checked
    increment of [vote] never panics: a call either succeeds or is
    rejected by one of the two [require]s. *)
Theorem vote_never_panics deployer cands s v c :
  reachable deployer cands s →
  votes_at s c <= Z.of_nat (voters_voted s) ∧
  Z.of_nat (voters_voted s) <= ADDRESS_SPACE ∧
  (vote v c s = AlreadyVoted ∨ vote v c s = InvalidCandidate ∨
   ∃ s', vote v c s = Ok (tt, s')).
Proof.
  intros Hs.
  pose proof (reachable_below_max keccak256 _ _ _ c Hs) as Hlt.
  apply reachable_inv in Hs as (_ & _ & Haddr & Hpos & Hsum).
  split_and!.
  - rewrite <- Hsum. apply (map_sum_lookup_le (votes s) c Hpos).
  - pose proof (count_true_le_size (hasVoted s)) as Hct.
    pose proof (address_map_size (hasVoted s) Haddr) as Hsz.
    unfold voters_voted. lia.
  - rewrite vote_eq.
    destruct (hasVoted_at s v); [by left|].
    destruct (validCandidate_loop keccak256 (candidates s) c);
      [|by right; left].
    destruct (decide (votes_at s c = MAX_UINT256)); [lia|].
    right; right. by eexists.
Qed.

Lemma count_accepted_for_le name calls : ∀ s,
  (count_accepted_for keccak256 name s calls ≤ length calls)%nat.
Proof.
  induction calls as [|[sender c] calls IH]; intros s; simpl; [lia|].
  specialize (IH (transact s sender c)).
  destruct (accepted keccak256 s sender c && bool_decide (c = name));
    simpl; lia.
Qed.

(** X4. Tallies and the number of voters that have voted only grow: over
    any sequence of calls, from any state, a tally does not decrease and
    gains at most one per call. *)
Theorem tallies_only_grow s calls name :
  votes_at s name <= votes_at (run s calls) name ∧
  votes_at (run s calls) name <= votes_at s name + Z.of_nat (length calls) ∧
  (voters_voted s ≤ voters_voted (run s calls))%nat.
Proof.
  rewrite run_votes_at, run_voters.
  pose proof (count_accepted_for_le name calls s). lia.
Qed.

(** A vote of somebody else leaves the flag of [v] as it is. *)
Lemma transact_hasVoted_other s sender c v :
  sender ≠ v →
  hasVoted_at (transact s sender c) v = hasVoted_at s v.
Proof.
  intros Hne. destruct (accepted keccak256 s sender c) eqn:Ha.
  - apply accepted_true in Ha as (_ & _ & _ & ->).
    unfold hasVoted_at. simpl. by rewrite lookup_insert_ne.
  - by rewrite accepted_false.
Qed.

(** X5. The flag of a voter after a sequence of calls: it was set before,
    or exactly one call of the voter was accepted. *)
Theorem flag_records_accepted_vote calls : ∀ s v,
  hasVoted_at (run s calls) v
    = hasVoted_at s v
      || bool_decide (count_accepted_by keccak256 v s calls = 1%nat).
Proof.
  induction calls as [|[sender c] calls IH]; intros s v; simpl.
  - by rewrite orb_false_r.
  - destruct (accepted keccak256 s sender c) eqn:Ha; simpl.
    + destruct (decide (sender = v)) as [->|Hs].
      * rewrite (bool_decide_eq_true_2 (v = v)) by done. simpl.
        pose proof (accepted_sets_flag keccak256 _ _ _ Ha) as Hset.
        rewrite (run_hasVoted_mono keccak256 calls _ _ Hset).
        rewrite (voted_never_accepted keccak256 v calls _ Hset).
        by rewrite orb_true_r.
      * rewrite (bool_decide_eq_false_2 (sender = v)) by done. simpl.
        by rewrite IH, transact_hasVoted_other.
    + rewrite accepted_false by done. apply IH.
Qed.

(** X6. Votes of two different senders commute: in a reachable state the
    storage after both transactions is the same in either order. *)
Theorem votes_commute deployer cands s a c1 b c2 :
  reachable deployer cands s →
  is_address a → is_address b → a ≠ b →
  transact (transact s a c1) b c2 = transact (transact s b c2) a c1.
Proof.
  intros Hs Ha Hb Hne.
  pose proof (reach_vote keccak256 _ _ s a c1 Hs Ha) as Hsa.
  pose proof (reach_vote keccak256 _ _ s b c2 Hs Hb) as Hsb.
  pose proof (accepted_reachable deployer cands s a c1 Hs) as Ea.
  pose proof (accepted_reachable deployer cands s b c2 Hs) as Eb.
  pose proof (accepted_reachable deployer cands _ b c2 Hsa) as Eab.
  pose proof (accepted_reachable deployer cands _ a c1 Hsb) as Eba.
  rewrite transact_hasVoted_other, <- Eb in Eab by done.
  rewrite transact_hasVoted_other, <- Ea in Eba by done.
  destruct (accepted keccak256 s a c1) eqn:Aa;
    destruct (accepted keccak256 s b c2) eqn:Ab.
  - apply accepted_true in Eab as (_ & _ & _ & ->).
    apply accepted_true in Eba as (_ & _ & _ & ->).
    rewrite (transact_votes_at keccak256 s a c1 c2), Aa.
    rewrite (transact_votes_at keccak256 s b c2 c1), Ab.
    rewrite !transact_admin, !transact_candidates.
    apply accepted_true in Aa as (_ & _ & _ & ->).
    apply accepted_true in Ab as (_ & _ & _ & ->). simpl.
    f_equal.
    + by apply insert_insert_ne.
    + destruct (decide (c1 = c2)) as [->|Hc].
      * rewrite !bool_decide_eq_true_2 by done.
        by rewrite !insert_insert_eq.
      * rewrite !bool_decide_eq_false_2 by done. simpl.
        rewrite !Z.add_0_r. by apply insert_insert_ne.
  - apply accepted_false in Eab. apply accepted_false in Ab.
    by rewrite Eab, Ab.
  - apply accepted_false in Eba. apply accepted_false in Aa.
    by rewrite Eba, Aa.
  - apply accepted_false in Eab. apply accepted_false in Eba.
    apply accepted_false in Aa. apply accepted_false in Ab.
    by rewrite Eab, Eba, Aa, Ab.
Qed.

End MoreContract.

(** * The front end *)

(** ** Chain keys *)

Example toString16_examples :
  toString16 11155111 = "aa36a7" ∧ toString16 31337 = "7a69" ∧
  toString16 0 = "0" ∧ toString16 255 = "ff" ∧ toString16 4096 = "1000".
Proof. by vm_compute. Qed.

Lemma hex_value_digit (d : N) :
  (d < 16)%N → hex_value (hex_digit d) = Some d.
Proof.
  intros Hd. unfold hex_value, hex_digit.
  destruct (N.ltb_spec d 10) as [Hlt|Hge].
  - rewrite Ascii.N_ascii_embedding by lia.
    destruct (N.leb_spec 48 (48 + d)); [|lia].
    destruct (N.leb_spec (48 + d) 57); [|lia].
    simpl. f_equal. lia.
  - rewrite Ascii.N_ascii_embedding by lia.
    destruct (N.leb_spec 48 (87 + d)); [|lia].
    destruct (N.leb_spec (87 + d) 57); [lia|].
    destruct (N.leb_spec 97 (87 + d)); [|lia].
    destruct (N.leb_spec (87 + d) 102); [|lia].
    simpl. f_equal. lia.
Qed.

(** Reading the digits that [toString16_digits] puts in front of [acc]
    continues from the number they were made of. *)
Lemma parse_toString16_digits (fuel : nat) : ∀ (n : N) (acc : string),
  (n < 16 ^ N.of_nat fuel)%N →
  parse_hex_from 0 (toString16_digits fuel n acc) = parse_hex_from n acc.
Proof.
  induction fuel as [|fuel IH]; intros n acc Hn.
  - simpl in *. assert (n = 0%N) as -> by lia. done.
  - cbn [toString16_digits].
    destruct (N.ltb_spec n 16) as [Hlt|Hge].
    + cbn [parse_hex_from]. rewrite hex_value_digit by done.
      f_equal.
    + rewrite IH.
      * cbn [parse_hex_from].
        rewrite hex_value_digit by (apply N.mod_lt; lia).
        f_equal. pose proof (N.div_mod n 16). lia.
      * rewrite Nat2N.inj_succ, N.pow_succ_r' in Hn.
        apply N.Div0.div_lt_upper_bound. lia.
Qed.

Lemma parse_toString16 (n : N) : parse_hex_from 0 (toString16 n) = Some n.
Proof.
  unfold toString16. rewrite parse_toString16_digits; [done|].
  rewrite Nat2N.inj_succ, N2Nat.id.
  destruct (decide (n = 0%N)) as [->|Hn]; [done|].
  pose proof (N.log2_spec n ltac:(lia)) as [_ Hlt].
  eapply N.lt_le_trans; [exact Hlt|].
  apply N.pow_le_mono_l. lia.
Qed.

(** Different chains have different keys: the key determines the chain
    id it was formatted from. *)
Lemma chainId_of_inj (chain1 chain2 : N) :
  chainId_of chain1 = chainId_of chain2 → chain1 = chain2.
Proof.
  assert (Hpre : ∀ a b : string, "0x" +:+ a = "0x" +:+ b → a = b).
  { intros a b Hab. by injection Hab. }
  unfold chainId_of. intros Heq. apply Hpre in Heq.
  pose proof (parse_toString16 chain1) as H1.
  rewrite Heq, parse_toString16 in H1. by injection H1.
Qed.


(** X7. For every value connectWallet stores in [currentNetwork], the
    voting controls are enabled (as far as the network goes) exactly
    when connectWallet accepted that network, and the Wrong Network
    panel, with its two switch buttons, is not rendered: its condition
    asks for an entry of NETWORK_INFO under a key other than the two
    keys NETWORK_INFO has. *)
Theorem wrong_network_panel_never (chain : N) :
  wrong_network_panel None = false ∧
  wrong_network_panel (Some (chainId_of chain)) = false ∧
  off_network (Some (chainId_of chain))
    = negb (truthy_string (CONTRACT_ADDRESSES !! chainId_of chain)).
Proof.
  split; [done|].
  destruct (decide (chain = 11155111%N)) as [->|H1]; [by vm_compute|].
  destruct (decide (chain = 31337%N)) as [->|H2]; [by vm_compute|].
  assert (K1 : "0xaa36a7" ≠ chainId_of chain).
  { intros Heq. apply H1. symmetry. by apply chainId_of_inj. }
  assert (K2 : "0x7a69" ≠ chainId_of chain).
  { intros Heq. apply H2. symmetry. by apply chainId_of_inj. }
  unfold wrong_network_panel, off_network, NETWORK_INFO, CONTRACT_ADDRESSES.
  rewrite !lookup_insert_ne, !lookup_empty by done.
  split.
  - rewrite (bool_decide_eq_false_2 (is_Some None)); [|by intros [? ?]].
    by rewrite andb_false_r.
  - rewrite !bool_decide_eq_true_2; [done|congruence|congruence].
Qed.

(** ** fetchVotes and the candidates of the front end *)

Section FrontEndFacts.
Context {digest : Type} `{EqDecision digest}.
Variable keccak256 : string -> digest.

Local Abbreviation run := (run keccak256).

Lemma run_app calls1 : ∀ s calls2,
  run s (calls1 ++ calls2) = run (run s calls1) calls2.
Proof.
  induction calls1 as [|[sender c] calls1 IH]; intros s calls2; simpl;
    [done|apply IH].
Qed.

Lemma run_votes_mono s calls name :
  votes_at s name <= votes_at (run s calls) name.
Proof. rewrite run_votes_at. lia. Qed.

(** What the loop of fetchVotes leaves in [results]. *)
Lemma fetchVotes_reads_spec names : ∀ between results s,
  ∃ results',
    fetchVotes_reads keccak256 names between results s
      = Ok (results', run s (concat (take (length names) between))) ∧
    (∀ c, c ∉ names → results' !! c = results !! c) ∧
    (∀ c, c ∈ names →
       ∃ n, results' !! c = Some n ∧
            votes_at s c <= n ∧
            n <= votes_at (run s (concat (take (length names) between))) c).
Proof.
  induction names as [|c0 names IH]; intros between results s.
  - exists results. simpl. split_and!; [done|done|].
    intros c Hc. by apply not_elem_of_nil in Hc.
  - cbn [fetchVotes_reads]. unfold getVotes, bind, get, ret.
    set (s1 := run s (hd [] between)).
    destruct (IH (tl between) (<[c0 := votes_at s1 c0]> results) s1)
      as (res & Hres & Hout & Hin).
    assert (Hend : run s (concat (take (length (c0 :: names)) between))
                   = run s1 (concat (take (length names) (tl between)))).
    { unfold s1. destruct between as [|b bs]; simpl.
      - by rewrite take_nil.
      - by rewrite run_app. }
    rewrite Hend. exists res. split_and!; [done| |].
    + intros c Hc. apply not_elem_of_cons in Hc as [Hne Hc].
      rewrite Hout by done. by rewrite lookup_insert_ne.
    + intros c Hc.
      destruct (decide (c ∈ names)) as [Hn|Hn].
      * destruct (Hin c Hn) as (n & Hl & Hlo & Hhi).
        exists n. split_and!; [done| |done].
        pose proof (run_votes_mono s (hd [] between) c). fold s1 in H. lia.
      * apply elem_of_cons in Hc as [->|Hc]; [|done].
        exists (votes_at s1 c0). split_and!.
        -- rewrite Hout by done. by rewrite lookup_insert_eq.
        -- apply run_votes_mono.
        -- apply run_votes_mono.
Qed.

(** X9. fetchVotes, racing with votes or not, returns an entry for each of
    Alice, Bob and Charlie and for nobody else; each entry lies between
    the tally when the fetch began and the tally when it ended.  The
    reads write nothing: the ledger ends where the votes of the others
    alone take it. *)
Theorem fetchVotes_between_start_and_end between s :
  ∃ results,
    fetchVotes keccak256 between s
      = Ok (results, run s (concat (take 3 between))) ∧
    (∀ c, c ∉ App_candidates → results !! c = None) ∧
    (∀ c, c ∈ App_candidates →
       ∃ n, results !! c = Some n ∧
            votes_at s c <= n ∧
            n <= votes_at (run s (concat (take 3 between))) c).
Proof.
  destruct (fetchVotes_reads_spec App_candidates between ∅ s)
    as (res & Hres & Hout & Hin).
  exists res. split_and!; [done| |done].
  intros c Hc. rewrite Hout by done. apply lookup_empty.
Qed.

Lemma lookup_sum_default_ext (m1 m2 : gmap string Z) (l : list string) :
  (∀ k, k ∈ l → default 0 (m1 !! k) = default 0 (m2 !! k)) →
  lookup_sum m1 l = lookup_sum m2 l.
Proof.
  induction l as [|k l IH]; intros Heq; simpl; [done|].
  rewrite (Heq k) by apply list_elem_of_here.
  rewrite IH; [done|]. intros j Hj. apply Heq. by apply list_elem_of_further.
Qed.

Lemma App_candidates_NoDup : NoDup App_candidates.
Proof.
  unfold App_candidates.
  repeat (apply NoDup_cons; split;
          [intros Hin; apply list_elem_of_In in Hin; simpl in Hin;
           intuition discriminate|]).
  apply NoDup_nil_2.
Qed.

(** X10. On a ledger that script/deploy.js deployed, a fetch with no vote
    in between shows the tally of every candidate of the front end, and
    the numbers shown add up to the number of voters that have voted,
    which is the number of accepted votes. *)
Theorem fetchVotes_shows_every_vote sender s0 calls :
  collision_free keccak256 →
  deploy_js sender = Ok s0 →
  ∃ results,
    fetchVotes keccak256 [] (run s0 calls) = Ok (results, run s0 calls) ∧
    (∀ c, c ∈ App_candidates →
       results !! c = Some (votes_at (run s0 calls) c)) ∧
    map_sum results = Z.of_nat (voters_voted (run s0 calls)) ∧
    voters_voted (run s0 calls) = count_accepted keccak256 s0 calls.
Proof.
  intros Hcf Hd. unfold deploy_js in Hd. rewrite deploy_eq in Hd.
  injection Hd as <-.
  set (s0 := {| admin := sender; hasVoted := ∅; votes := ∅;
                candidates := deploy_example |}).
  destruct (fetchVotes_reads_spec App_candidates [] ∅ (run s0 calls))
    as (res & Hres & Hout0 & Hin).
  assert (Hout : ∀ c, c ∉ App_candidates → res !! c = None).
  { intros c Hc. rewrite Hout0 by done. apply lookup_empty. }
  simpl in Hres, Hin.
  assert (Hval : ∀ c, c ∈ App_candidates →
                   res !! c = Some (votes_at (run s0 calls) c)).
  { intros c Hc. destruct (Hin c Hc) as (n & -> & Hlo & Hhi).
    f_equal. lia. }
  exists res. split_and!; [done|done| |].
  - rewrite <- (map_sum_list App_candidates res App_candidates_NoDup).
    2:{ intros k [x Hk]. destruct (decide (k ∈ App_candidates)); [done|].
        by rewrite Hout in Hk. }
    rewrite (lookup_sum_default_ext res (votes (run s0 calls))).
    2:{ intros k Hk. by rewrite (Hval k Hk). }
    rewrite (map_sum_list App_candidates _ App_candidates_NoDup).
    + fold (total_votes (run s0 calls)).
      rewrite run_total, run_voters. unfold total_votes, voters_voted.
      simpl. rewrite map_sum_empty, count_true_empty. simpl. lia.
    + intros k Hk.
      apply run_votes_dom in Hk as [[x Hx]|Hv].
      * simpl in Hx. by rewrite lookup_empty in Hx.
      * apply (validCandidate_loop_true keccak256) in Hv; [exact Hv|done].
  - rewrite run_voters. unfold voters_voted. simpl.
    by rewrite count_true_empty.
Qed.

(** X11. The front end and the deployment script agree on the candidates.
    On a ledger deployed by script/deploy.js, in every reachable state,
    a vote for any candidate the front end offers by a voter that has
    not voted succeeds; and a name whose vote is accepted is one the
    front end offers. *)
Theorem App_offers_the_deployed_candidates deployer s v c :
  collision_free keccak256 →
  reachable keccak256 deployer deploy_example s →
  hasVoted_at s v = false →
  (c ∈ App_candidates → ∃ s', vote keccak256 v c s = Ok (tt, s')) ∧
  (accepted keccak256 s v c = true → c ∈ App_candidates).
Proof.
  intros Hcf Hs Hv.
  pose proof (reachable_below_max keccak256 _ _ _ c Hs) as Hlt.
  pose proof Hs as Hinv.
  apply reachable_inv in Hinv as (_ & Hcs & _).
  split.
  - intros Hc. eexists. apply vote_ok; [done| |done].
    rewrite Hcs. by apply validCandidate_loop_elem.
  - intros Ha. apply accepted_true in Ha as (_ & Hvalid & _).
    rewrite Hcs in Hvalid.
    by apply (validCandidate_loop_true keccak256) in Hvalid.
Qed.

End FrontEndFacts.

(** ** The further properties at concrete ledgers *)

Lemma constructor_fixes_candidates_witness :
  deploy 1 deploy_example = Ok ledger0 ∧
  candidates (run ideal_keccak256 ledger0 scenario_calls) = deploy_example ∧
  admin (run ideal_keccak256 ledger0 scenario_calls) = 1 ∧
  ∀ name,
    validCandidate ideal_keccak256 name
        (run ideal_keccak256 ledger0 scenario_calls)
      = Ok (validCandidate_loop ideal_keccak256 deploy_example name,
            run ideal_keccak256 ledger0 scenario_calls).
Proof.
  split; [reflexivity|].
  exact (constructor_fixes_candidates ideal_keccak256 1 deploy_example
           ledger0 scenario_calls eq_refl).
Defined.

Lemma vote_never_panics_witness :
  reachable ideal_keccak256 1 deploy_example ledger0 ∧
  votes_at ledger0 "Bob" <= Z.of_nat (voters_voted ledger0) ∧
  Z.of_nat (voters_voted ledger0) <= ADDRESS_SPACE ∧
  (vote ideal_keccak256 10 "Bob" ledger0 = AlreadyVoted ∨
   vote ideal_keccak256 10 "Bob" ledger0 = InvalidCandidate ∨
   ∃ s', vote ideal_keccak256 10 "Bob" ledger0 = Ok (tt, s')).
Proof.
  assert (Hr : reachable ideal_keccak256 1 deploy_example ledger0).
  { apply reach_deploy; [by vm_compute|reflexivity]. }
  split; [exact Hr|].
  exact (vote_never_panics ideal_keccak256 1 deploy_example ledger0 10 "Bob"
           Hr).
Defined.

Lemma votes_commute_witness :
  reachable ideal_keccak256 1 deploy_example ledger0 ∧
  is_address 10 ∧ is_address 11 ∧ 10 ≠ 11 ∧
  transact ideal_keccak256 (transact ideal_keccak256 ledger0 10 "Bob")
      11 "Bob"
    = transact ideal_keccak256 (transact ideal_keccak256 ledger0 11 "Bob")
        10 "Bob".
Proof.
  assert (Hr : reachable ideal_keccak256 1 deploy_example ledger0).
  { apply reach_deploy; [by vm_compute|reflexivity]. }
  assert (H10 : is_address 10). { by vm_compute. }
  assert (H11 : is_address 11). { by vm_compute. }
  assert (Hne : 10 ≠ 11). { discriminate. }
  split; [exact Hr|]. split; [exact H10|]. split; [exact H11|].
  split; [exact Hne|].
  exact (votes_commute ideal_keccak256 1 deploy_example ledger0
           10 "Bob" 11 "Bob" Hr H10 H11 Hne).
Defined.

(** Two votes for Bob, in either order: Bob has two votes and both
    flags are set. *)
Example votes_commute_example :
  let s := run ideal_keccak256 ledger0 [(11, "Bob"); (10, "Bob")] in
  run ideal_keccak256 ledger0 [(10, "Bob"); (11, "Bob")] = s ∧
  votes_at s "Bob" = 2 ∧ hasVoted_at s 10 = true ∧ hasVoted_at s 11 = true.
Proof. by vm_compute. Qed.

Lemma fetchVotes_shows_every_vote_witness :
  collision_free ideal_keccak256 ∧
  deploy_js 1 = Ok ledger0 ∧
  ∃ results,
    fetchVotes ideal_keccak256 []
        (run ideal_keccak256 ledger0 scenario_calls)
      = Ok (results, run ideal_keccak256 ledger0 scenario_calls) ∧
    (∀ c, c ∈ App_candidates →
       results !! c
         = Some (votes_at (run ideal_keccak256 ledger0 scenario_calls) c)) ∧
    map_sum results
      = Z.of_nat (voters_voted (run ideal_keccak256 ledger0 scenario_calls)) ∧
    voters_voted (run ideal_keccak256 ledger0 scenario_calls)
      = count_accepted ideal_keccak256 ledger0 scenario_calls.
Proof.
  split; [exact ideal_collision_free|]. split; [reflexivity|].
  exact (fetchVotes_shows_every_vote ideal_keccak256 1 ledger0
           scenario_calls ideal_collision_free eq_refl).
Defined.

(** A fetch during which Y's vote for Charlie arrives between the read
    of Bob and the read of Charlie. *)
Example fetchVotes_racing_example :
  fetchVotes ideal_keccak256 [[]; []; [(11, "Charlie")]]
      (run ideal_keccak256 ledger0 [(10, "Bob")])
    = Ok (<["Charlie" := 1]> (<["Bob" := 1]> (<["Alice" := 0]> ∅)),
          run ideal_keccak256 ledger0 [(10, "Bob"); (11, "Charlie")]).
Proof. by vm_compute. Qed.

Lemma App_offers_the_deployed_candidates_witness :
  collision_free ideal_keccak256 ∧
  reachable ideal_keccak256 1 deploy_example ledger0 ∧
  hasVoted_at ledger0 10 = false ∧
  ("Alice" ∈ App_candidates →
     ∃ s', vote ideal_keccak256 10 "Alice" ledger0 = Ok (tt, s')) ∧
  (accepted ideal_keccak256 ledger0 10 "Alice" = true →
     "Alice" ∈ App_candidates).
Proof.
  assert (Hr : reachable ideal_keccak256 1 deploy_example ledger0).
  { apply reach_deploy; [by vm_compute|reflexivity]. }
  split; [exact ideal_collision_free|]. split; [exact Hr|].
  split; [reflexivity|].
  exact (App_offers_the_deployed_candidates ideal_keccak256 1 ledger0 10
           "Alice" ideal_collision_free Hr eq_refl).
Defined.

(** * The handlers of the front end *)

Section Handlers.
Context {digest : Type} `{EqDecision digest}.
Variable keccak256 : string -> digest.
Variable err_message : call_error -> string.
Variable panic_reason : Z -> string.

Local Abbreviation fetch_handler := (App_fetchVotes keccak256 err_message).
Local Abbreviation connect_handler :=
  (App_connectWallet keccak256 err_message).
Local Abbreviation vote_handler :=
  (App_vote keccak256 err_message panic_reason).




(** X13. The submit handler when the flag of the front end is stale: the
    signer has voted on the ledger but the front end holds false.  The
    vote is sent and rejected; the ledger is unchanged, the error shown
    is the reason of the contract, and the front end learns nothing
    from it: its flag stays false and its tallies are not read again. *)
Theorem App_vote_stale_flag between s u contractAddress signer :
  UI.selectedCandidate u ≠ "" →
  UI.contract u = Some (contractAddress, signer) →
  UI.hasVoted u = false →
  hasVoted_at s signer = true →
  ∃ u',
    vote_handler between s u = (u', s) ∧
    UI.error u' = Some "Voting failed: Already voted!" ∧
    UI.hasVoted u' = false ∧
    UI.votes u' = UI.votes u ∧
    UI.isLoading u' = false.
Proof.
  intros Hsel Hc Hu Hv.
  unfold App_vote. rewrite bool_decide_eq_false_2 by done.
  rewrite Hc, Hu. cbn [UI.selectedCandidate UI.setError UI.setIsLoading].
  rewrite vote_eq, Hv. unfold AlreadyVoted.
  eexists. split; [reflexivity|]. simpl. done.
Qed.

End Handlers.

(** ** The handlers at a concrete ledger *)

Example ui_connected_fields :
  UI.account ui_connected = Some 10 ∧
  UI.contract ui_connected
    = Some ("0x68d1DD822148664dE9c3eed4bB7449376644a919", 10) ∧
  UI.currentNetwork ui_connected = Some "0x7a69" ∧
  UI.hasVoted ui_connected = false ∧
  UI.error ui_connected = None ∧
  UI.votes ui_connected !! "Bob" = Some 0.
Proof. by vm_compute. Qed.


Lemma App_vote_stale_flag_witness :
  UI.selectedCandidate ui_connected ≠ "" ∧
  UI.contract ui_connected
    = Some ("0x68d1DD822148664dE9c3eed4bB7449376644a919", 10) ∧
  UI.hasVoted ui_connected = false ∧
  hasVoted_at (transact ideal_keccak256 ledger0 10 "Alice") 10 = true ∧
  ∃ u',
    App_vote ideal_keccak256 example_err_message example_panic_reason
        [] (transact ideal_keccak256 ledger0 10 "Alice") ui_connected
      = (u', transact ideal_keccak256 ledger0 10 "Alice") ∧
    UI.error u' = Some "Voting failed: Already voted!" ∧
    UI.hasVoted u' = false ∧
    UI.votes u' = UI.votes ui_connected ∧
    UI.isLoading u' = false.
Proof.
  assert (Hsel : UI.selectedCandidate ui_connected ≠ "").
  { change (UI.selectedCandidate ui_connected) with "Bob". discriminate. }
  assert (Hc : UI.contract ui_connected
                 = Some ("0x68d1DD822148664dE9c3eed4bB7449376644a919", 10)).
  { by vm_compute. }
  assert (Hv : hasVoted_at (transact ideal_keccak256 ledger0 10 "Alice") 10
                 = true).
  { by vm_compute. }
  split; [exact Hsel|]. split; [exact Hc|]. split; [reflexivity|].
  split; [exact Hv|].
  exact (App_vote_stale_flag ideal_keccak256 example_err_message
           example_panic_reason [] (transact ideal_keccak256 ledger0 10 "Alice")
           ui_connected "0x68d1DD822148664dE9c3eed4bB7449376644a919" 10
           Hsel Hc eq_refl Hv).
Defined.
